(** * Unknown-content detection and recovery (tiptap core helpers)

    A shallow embedding of
    - the unknown-content helpers ([checkForUnknownContent],
      [getUnknownContent], [generatePlaceholderNodeExtensions],
      [isContentInvalid], [createPlaceholderExtensions]), and
    - [packages/core/src/helpers/createNodeFromContent.ts]
      ([transformers.remove], [checkForInvalidContent], [getInvalidContent],
      [createNodeFromContent]),
    together with the properties the specification states about them. *)

From stdpp Require Import base list strings gmap pretty sorting.

Local Open Scope string_scope.
Local Open Scope list_scope.

(** ** Values shared by both source files ([types.js]) *)

(** An element of [JSONContent.marks]: the validators accept a bare name
    ([typeof mark === 'string']) as well as an object with a [type] and an
    optional [attrs] object.  Of an attribute object only its key sequence
    [Object.keys(attrs)] is ever read, so that sequence stands for it. *)
Inductive MarkRef : Type :=
  | MarkName (name : string)
  | MarkObj (mark_type : string) (mark_attrs : option (list string)).

(** [JSONContent]: every field is optional. *)
#[warnings="-register-all"]
Inductive JSONContent : Type :=
  mkJSON {
    type : option string;
    attrs : option (list string);
    marks : option (list MarkRef);
    content : option (list JSONContent);
    text : option string
  }.

(** The [json] argument of [getUnknownContent] and the object case of
    [Content]: [JSONContent | JSONContent[]]. *)
Inductive JSONInput : Type :=
  | One (json : JSONContent)
  | Many (jsons : list JSONContent).

(** [Content = HTMLContent | JSONContent | JSONContent[] | null]; a caller
    that omits the argument passes [undefined]. *)
Inductive Content : Type :=
  | CNull
  | CUndefined
  | CString (html : string)
  | CJSON (json : JSONInput).

(** What the validators read off a ProseMirror [Schema]:
    [Object.keys(schema.nodes)] and [Object.keys(schema.marks)]. *)
Record Schema : Type := mkSchema {
  schema_nodes : list string;
  schema_marks : list string
}.

(** The [type] of a reported block: ['mark' | 'node']. *)
Inductive BlockType : Type := mark | node.

(** JavaScript truthiness of the values tested by the code. *)
Definition truthy_string (s : string) : bool := negb (String.eqb s "").

Definition truthy_content (c : Content) : bool :=
  match c with
  | CNull | CUndefined => false
  | CString s => truthy_string s
  | CJSON _ => true
  end.

(** [Set.prototype.has] on a set of strings. *)
Definition has (s : gset string) (x : string) : bool := bool_decide (x ∈ s).

(** A loop over the entries of an array, [Object.entries(xs).forEach] or
    [for (... of xs.entries())]: the body receives the index, the element
    and the variables it updates, in index order, from index [index] on. *)
Definition forEachEntry {A St : Type} (body : St → nat → A → St)
    : nat → list A → St → St :=
  fix forEach (index : nat) (values : list A) (st : St) {struct values} : St :=
    match values with
    | [] => st
    | value :: values' => forEach (S index) values' (body st index value)
    end.

(** Structural induction over [JSONContent], with the children covered. *)
Section JSONContent_induction.
Variable P : JSONContent → Prop.
Hypothesis Hleaf : ∀ t a m x, P (mkJSON t a m None x).
Hypothesis Hnode : ∀ t a m cs x, Forall P cs → P (mkJSON t a m (Some cs) x).

Fixpoint JSONContent_children_ind (j : JSONContent) : P j :=
  match j with
  | mkJSON t a m None x => Hleaf t a m x
  | mkJSON t a m (Some cs) x =>
      Hnode t a m cs x
        ((fix all (l : list JSONContent) : Forall P l :=
            match l with
            | [] => @List.Forall_nil _ P
            | c :: l' => @List.Forall_cons _ P c l' (JSONContent_children_ind c) (all l')
            end) cs)
  end.
End JSONContent_induction.

(** ** Thrown errors *)

Inductive Error : Type := mkError (message : string).

(** The result of a call that may throw. *)
Inductive Outcome (A : Type) : Type :=
  | Returned (a : A)
  | Thrown (e : Error).
Arguments Returned {A} a.
Arguments Thrown {A} e.

#[global] Instance Outcome_ret : MRet Outcome := λ A a, Returned a.
#[global] Instance Outcome_bind : MBind Outcome := λ A B f c,
  match c with
  | Returned a => f a
  | Thrown e => Thrown e
  end.

(** ** Plain objects used as string-keyed records

    A [Record<string, V>] created by the literal [{}] and only ever written
    by [o[k] = v] with [v] an object.  Its own enumerable properties are
    kept in creation order; assigning to an existing key keeps the key's
    position.  The key ["__proto__"] is no own property: [o["__proto__"] = v]
    runs the setter inherited from [Object.prototype] and replaces the
    prototype of [o] ([proto = None] while it is still [Object.prototype]). *)
Record JSObject (V : Type) : Type := mkObject {
  own : list (string * V);
  proto : option V
}.
Arguments mkObject {V} own proto.
Arguments own {V} _.
Arguments proto {V} _.

Definition emptyObject {V : Type} : JSObject V := mkObject [] None.

Fixpoint lookupOwn {V : Type} (k : string) (l : list (string * V)) : option V :=
  match l with
  | [] => None
  | (k', v) :: l' => if decide (k' = k) then Some v else lookupOwn k l'
  end.

Fixpoint assignOwn {V : Type} (k : string) (v : V) (l : list (string * V))
    : list (string * V) :=
  match l with
  | [] => [(k, v)]
  | (k', v') :: l' =>
      if decide (k' = k) then (k, v) :: l' else (k', v') :: assignOwn k v l'
  end.

Definition setProperty {V : Type} (o : JSObject V) (k : string) (v : V)
    : JSObject V :=
  if decide (k = "__proto__") then mkObject (own o) (Some v)
  else mkObject (assignOwn k v (own o)) (proto o).

(** Array indices: the canonical decimal strings of the integers below
    [2^32 - 1].  [OrdinaryOwnPropertyKeys] lists them first, in ascending
    numeric order, and the other string keys after them in creation order. *)
Definition digitValue (c : Ascii.ascii) : option N :=
  let n := Ascii.N_of_ascii c in
  if decide (48 ≤ n ≤ 57)%N then Some (n - 48)%N else None.

Fixpoint parseDigits (acc : N) (s : string) : option N :=
  match s with
  | EmptyString => Some acc
  | String c s' =>
      match digitValue c with
      | Some d => parseDigits (10 * acc + d)%N s'
      | None => None
      end
  end.

Definition arrayIndex (s : string) : option N :=
  match s with
  | EmptyString => None
  | _ =>
      match parseDigits 0 s with
      | Some n =>
          if decide (pretty n = s ∧ (n < 2 ^ 32 - 1)%N) then Some n else None
      | None => None
      end
  end.

Definition indexedEntries {V : Type} (l : list (string * V)) : list (N * V) :=
  omap (λ e, (λ n, (n, e.2)) <$> arrayIndex e.1) l.

Definition namedEntries {V : Type} (l : list (string * V)) : list (string * V) :=
  filter (λ e, arrayIndex e.1 = None) l.

Definition indexLe {V : Type} (a b : N * V) : Prop := (a.1 ≤ b.1)%N.

#[global] Instance indexLe_dec {V : Type} : RelDecision (@indexLe V).
Proof. intros a b. unfold indexLe. apply _. Defined.

(** [Object.values] *)
Definition objectValues {V : Type} (o : JSObject V) : list V :=
  (merge_sort indexLe (indexedEntries (own o))).*2 ++ (namedEntries (own o)).*2.

(** [Object.keys], and the order in which [Object.entries] and [for..in]
    visit the own properties: an index key is the decimal string of its
    index. *)
Definition objectKeys {V : Type} (o : JSObject V) : list string :=
  ((λ e : N * V, pretty e.1) <$> merge_sort indexLe (indexedEntries (own o)))
  ++ (namedEntries (own o)).*1.

(** An optional key of an options object ([key?: A]): no own key, or an own
    key whose value may still be [undefined].  A spread copies the own keys,
    [undefined] values included; reading a key that is absent yields
    [undefined]. *)
Inductive Optional (A : Type) : Type :=
  | absent
  | present (value : option A).
Arguments absent {A}.
Arguments present {A} value.

Definition readKey {A : Type} (key : Optional A) : option A :=
  match key with
  | absent => None
  | present value => value
  end.

(** The key of [{ key: dflt, ...options }]. *)
Definition spreadOver {A : Type} (dflt : A) (key : Optional A) : Optional A :=
  match key with
  | absent => present (Some dflt)
  | present value => present value
  end.

(** [new Set(iterable)] as the sequence its iterator yields: every value
    once, at the place of its first occurrence. *)
Definition newSet (l : list string) : list string :=
  fold_left (λ s x, if decide (x ∈ s) then s else s ++ [x]) l [].

(** [String.prototype.toLowerCase] follows the Unicode case mapping and is
    a parameter of the entry points.  [asciiLowerCase] is that mapping on
    strings of ASCII characters, where only the letters [A] to [Z] change;
    the examples use it. *)
Definition lowerAscii (c : Ascii.ascii) : Ascii.ascii :=
  let n := Ascii.N_of_ascii c in
  if decide (65 ≤ n ≤ 90)%N then Ascii.ascii_of_N (n + 32) else c.

Fixpoint asciiLowerCase (s : string) : string :=
  match s with
  | EmptyString => EmptyString
  | String c s' => String (lowerAscii c) (asciiLowerCase s')
  end.

(** [Number.MIN_SAFE_INTEGER] *)
Definition MIN_SAFE_INTEGER : Z := (- (2 ^ 53 - 1))%Z.


(** ** The unknown-content helpers *)

Module UnknownContent.

(** [unknownContentBlock].  A path segment is a string: the literals
    ['marks'] and ['content'] and the indices rendered by a template
    literal. *)
Record unknownContentBlock : Type := mkBlock {
  blockType : BlockType;
  name : string;
  attributes : list string;
  path : list string;
  invalidParentNode : bool;
  invalidParentMark : bool
}.

Definition markName (m : MarkRef) : string :=
  match m with
  | MarkName n => n
  | MarkObj t _ => t
  end.

(** [Object.keys(mark.attrs || {})] *)
Definition markAttributes (m : MarkRef) : list string :=
  match m with
  | MarkName _ => []
  | MarkObj _ a => default [] a
  end.

(** One round of the [forEach] over [Object.entries(marks)]; the state is
    the pair of [invalidMarks] and the mutable [invalidParentMark], and the
    index is rendered in decimal. *)
Definition markStep (validMarks : gset string) (path : list string)
    (invalidParentNode : bool)
    (st : list unknownContentBlock * bool) (index : nat) (m : MarkRef)
    : list unknownContentBlock * bool :=
  let '(invalidMarks, invalidParentMark) := st in
  let name := markName m in
  if has validMarks name then st
  else
    ({| blockType := mark;
        name := name;
        attributes := markAttributes m;
        path := path ++ ["marks"; pretty index];
        invalidParentMark := invalidParentMark;
        invalidParentNode := invalidParentNode |} :: invalidMarks,
     true).

(** The [if (marks)] block: returns [invalidNodes] after the [push] and the
    updated [invalidParentMark]. *)
Definition checkMarks (validMarks : gset string) (path : list string)
    (invalidParentNode invalidParentMark : bool) (ms : option (list MarkRef))
    : list unknownContentBlock * bool :=
  match ms with
  | Some ms =>
      let '(invalidMarks, invalidParentMark) :=
        forEachEntry (markStep validMarks path invalidParentNode)
                     0 ms ([], invalidParentMark) in
      ([] ++ invalidMarks, invalidParentMark)
  | None => ([], invalidParentMark)
  end.

(** The [if (type && !validNodes.has(type))] block. *)
Definition checkType (validNodes : gset string) (json : JSONContent)
    (path : list string) (invalidParentNode invalidParentMark : bool)
    (invalidNodes : list unknownContentBlock)
    : list unknownContentBlock * bool :=
  match type json with
  | Some t =>
      if truthy_string t && negb (has validNodes t) then
        (invalidNodes ++
           [{| blockType := node;
               name := t;
               attributes := default [] (attrs json);
               path := path;
               invalidParentMark := invalidParentMark;
               invalidParentNode := invalidParentNode |}],
         true)
      else (invalidNodes, invalidParentNode)
  | None => (invalidNodes, invalidParentNode)
  end.

Fixpoint checkForUnknownContent (validMarks validNodes : gset string)
    (json : JSONContent) (path : list string)
    (invalidParentNode invalidParentMark : bool) {struct json}
    : list unknownContentBlock :=
  let '(invalidNodes, invalidParentMark) :=
    checkMarks validMarks path invalidParentNode invalidParentMark (marks json) in
  let '(invalidNodes, invalidParentNode) :=
    checkType validNodes json path invalidParentNode invalidParentMark invalidNodes in
  match json with
  | mkJSON _ _ _ (Some cs) _ =>
      let unknownContent :=
        forEachEntry
          (λ unknownContent index value,
             checkForUnknownContent validMarks validNodes value
               (path ++ ["content"; pretty index])
               invalidParentNode invalidParentMark
             ++ unknownContent)
          0 cs [] in
      unknownContent ++ invalidNodes
  | mkJSON _ _ _ None _ => invalidNodes
  end.

(** [getUnknownContent]: [[].concat(jsonContent)] is the list of top-level
    nodes; a path starts with the index only when an array was passed. *)
Definition getUnknownContent (jsonContent : JSONInput) (schema : Schema)
    : list unknownContentBlock :=
  let validMarks : gset string := list_to_set (schema_marks schema) in
  let validNodes : gset string := list_to_set (schema_nodes schema) in
  match jsonContent with
  | One json => checkForUnknownContent validMarks validNodes json [] false false
  | Many jsons =>
      mjoin (imap (λ idx json,
               checkForUnknownContent validMarks validNodes json [pretty idx]
                 false false) jsons)
  end.

(** *** Extensions *)

(** What [renderHTML] returns: [[tag, attributes, 0]] is an element with a
    content hole. *)
#[warnings="-register-all"]
Inductive DOMOutputSpec : Type :=
  | Hole
  | Text (s : string)
  | Element (tag : string) (attributes : list (string * string))
            (children : list DOMOutputSpec).

(** The [getAttrs] hook of a parse rule: absent, or the closure of
    [getUnknownHTMLElements] that records the element it is called with. *)
Inductive GetAttrs : Type := NoGetAttrs | RecordElement.

Record ParseRule : Type := mkParseRule {
  tag : string;
  getAttrs : GetAttrs
}.

Inductive ExtensionClass : Type := PlainClass | NodeClass | MarkClass.

(** An attribute specification [{ default: null, parseHTML }] of a
    placeholder: its [parseHTML] yields [null] for a string and, for an
    element, the value of the attribute named [reads]. *)
Record AttributeSpec : Type := mkAttribute {
  reads : string
}.

(** An [Extension], [Node] or [Mark] instance, by the configuration the
    code reads or writes.  [addAttributes] is the object that a call of
    [addAttributes()] returns, [None] for a configuration without that
    method. *)
Record AnyExtension : Type := mkExtension {
  extClass : ExtensionClass;
  extName : string;
  priority : option Z;
  group : option string;
  contentExpression : option string;
  addAttributes : option (JSObject AttributeSpec);
  parseHTML : list ParseRule;
  renderHTML : option (list (string * string) → DOMOutputSpec)
}.

(** The attribute names that an extension declares: the keys of the object
    of [addAttributes()]. *)
Definition attributeNames (extension : AnyExtension) : list string :=
  from_option objectKeys [] (addAttributes extension).

Definition Extensions : Type := list AnyExtension.

(** An [HTMLElement], by [tagName] and [getAttributeNames()]. *)
Record HTMLElement : Type := mkElement {
  tagName : string;
  getAttributeNames : list string
}.

Record PlaceholderExtensionOptions : Type := mkOptions {
  fallback : option (list (string * string) → DOMOutputSpec)
}.

(** The temporary catch-all extension of [getUnknownHTMLElements]. *)
Definition unknownPlaceholderNode : AnyExtension :=
  {| extClass := NodeClass;
     extName := "tiptap-unknown-placeholder-node";
     priority := Some MIN_SAFE_INTEGER;
     group := Some "block";
     contentExpression := Some "inline*";
     addAttributes := None;
     parseHTML := [ {| tag := "*"; getAttrs := RecordElement |} ];
     renderHTML := None |}.

(** An element of the argument of [generatePlaceholderNodeExtensions]. *)
Record PlaceholderElement : Type := mkPlaceholder {
  elType : BlockType;
  elTagName : string;
  elAttributes : list string
}.

(** A value of the [extensionMap] accumulator. *)
Record Generated : Type := mkGenerated {
  genAttributes : list string;
  genNode : AnyExtension
}.

(** [extensionMap[tagName]?.attributes || []].  For a key that is no own
    property the lookup follows the prototype: ["__proto__"] yields the
    replaced prototype itself, whose [attributes] is a merged set; every
    other inherited value (a member of [Object.prototype], or the
    [attributes] set or the [node] instance of a replaced prototype) has no
    [attributes] property. *)
Definition seenBefore (extensionMap : JSObject Generated) (tagName : string)
    : list string :=
  match lookupOwn tagName (own extensionMap) with
  | Some g => genAttributes g
  | None =>
      if decide (tagName = "__proto__")
      then from_option genAttributes [] (proto extensionMap)
      else []
  end.

(** The body of [addAttributes()]:
    [[...attributes].reduce((acc, name) => { acc[name] = {...}; return acc }, {})].
    The accumulator is a plain object, so the name ["__proto__"] sets its
    prototype and leaves no key. *)
Definition declareAttributes (attributes : list string) : JSObject AttributeSpec :=
  fold_left (λ acc name, setProperty acc name {| reads := name |})
    attributes emptyObject.

(** [(type === 'mark' ? Mark : Node).create({...})], with [attributes] the
    set that the closure of [addAttributes] holds. *)
Definition createPlaceholder (options : PlaceholderExtensionOptions)
    (type : BlockType) (tagName : string) (attributes : list string)
    : AnyExtension :=
  {| extClass := match type with mark => MarkClass | node => NodeClass end;
     extName := tagName;
     priority := Some MIN_SAFE_INTEGER;
     group := match type with mark => None | node => Some "block" end;
     contentExpression :=
       match type with mark => None | node => Some "inline*" end;
     addAttributes := Some (declareAttributes attributes);
     parseHTML := [ {| tag := tagName; getAttrs := NoGetAttrs |} ];
     renderHTML :=
       Some (λ HTMLAttributes,
         match fallback options with
         | Some f => f HTMLAttributes
         | None => Element tagName HTMLAttributes [Hole]
         end) |}.

(** The callback of [elements.reduce]. *)
Definition mergeElement (options : PlaceholderExtensionOptions)
    (extensionMap : JSObject Generated) (el : PlaceholderElement)
    : JSObject Generated :=
  let attributes := newSet (seenBefore extensionMap (elTagName el) ++ elAttributes el) in
  setProperty extensionMap (elTagName el)
    {| genAttributes := attributes;
       genNode := createPlaceholder options (elType el) (elTagName el) attributes |}.

Definition generatePlaceholderNodeExtensions (elements : list PlaceholderElement)
    (options : PlaceholderExtensionOptions) : Extensions :=
  let generatedExtensions := fold_left (mergeElement options) elements emptyObject in
  genNode <$> objectValues generatedExtensions.

(** *** The entry points, over the external steps *)

Section EntryPoints.

(** [getSchemaByResolvedExtensions(ExtensionManager.resolve(extensions))];
    building a schema may throw. *)
Variable deriveSchema : Extensions → Outcome Schema.

(** The arguments with which [createDocument], parsing the content with
    the schema resolved from the given extensions, calls the [getAttrs]
    hook of the rule with tag ["*"], in call order.  A hook receives an
    element, or a string when it belongs to a style rule. *)
Variable catchAllCalls : Extensions → string → Outcome (list (string + HTMLElement)).

(** [String.prototype.toLowerCase] *)
Variable toLowerCase : string → string.

(** The hook: [if (typeof node === 'string') { return null }],
    [seenNodes.push(node)] otherwise. *)
Definition recordElement (seenNodes : list HTMLElement) (arg : string + HTMLElement)
    : list HTMLElement :=
  match arg with
  | inl _ => seenNodes
  | inr element => seenNodes ++ [element]
  end.

Definition getUnknownHTMLElements (content : string) (extensions : Extensions)
    : Outcome (list HTMLElement) :=
  calls ← catchAllCalls (extensions ++ [unknownPlaceholderNode]) content;
  mret (fold_left recordElement calls []).

Definition isContentInvalid (content : Content) (extensions : Extensions)
    : Outcome bool :=
  if negb (truthy_content content) then mret false
  else
    match content with
    | CString html =>
        unknownHTMLElements ← getUnknownHTMLElements html extensions;
        mret (negb (Nat.eqb (length unknownHTMLElements) 0))
    | CJSON json =>
        schema ← deriveSchema extensions;
        let unknownContent := getUnknownContent json schema in
        mret (negb (Nat.eqb (length unknownContent) 0))
    | CNull | CUndefined => mret false
    end.

Definition createPlaceholderExtensions (content : Content)
    (extensions : Extensions) (options : PlaceholderExtensionOptions)
    : Outcome Extensions :=
  if negb (truthy_content content) then mret extensions
  else
    match content with
    | CString html =>
        unknownHTMLElements ← getUnknownHTMLElements html extensions;
        if Nat.eqb (length unknownHTMLElements) 0 then mret extensions
        else
          let generatedExtensions :=
            generatePlaceholderNodeExtensions
              ((λ element, {| elType := node;
                              elTagName := toLowerCase (tagName element);
                              elAttributes := getAttributeNames element |})
                 <$> unknownHTMLElements)
              options in
          mret (filter (λ extension, extName extension ≠ "collaboration") extensions
                ++ generatedExtensions)
    | CJSON json =>
        schema ← deriveSchema extensions;
        let unknownContent := getUnknownContent json schema in
        if Nat.eqb (length unknownContent) 0 then mret extensions
        else
          let generatedExtensions :=
            generatePlaceholderNodeExtensions
              ((λ b, {| elType := blockType b;
                        elTagName := name b;
                        elAttributes := attributes b |})
                 <$> unknownContent)
              options in
          mret (extensions ++ generatedExtensions)
    | CNull | CUndefined => mret extensions
    end.

End EntryPoints.

End UnknownContent.

(** ** [createNodeFromContent.ts] *)

Module CreateNode.

(** [InvalidContentBlock]; [name] is [type!], which is [undefined] for a
    node without a [type]. *)
Record InvalidContentBlock : Type := mkBlock {
  blockType : BlockType;
  name : option string;
  path : list string;
  invalidParentNode : bool;
  invalidParentMark : bool
}.

(** [transformers.remove]: the loop skips the blocks with an invalid parent
    and does nothing for the others (the [unset] call is commented out). *)
Definition remove (json : JSONContent) (invalidContent : list InvalidContentBlock)
    : JSONContent :=
  let newJSON := json in
  fold_left
    (λ newJSON block,
       if invalidParentNode block then newJSON (* continue *)
       else newJSON)
    invalidContent newJSON.

Record Transformers : Type := mkTransformers {
  transformers_remove : JSONContent → list InvalidContentBlock → JSONContent
}.

Definition transformers : Transformers := {| transformers_remove := remove |}.

Definition markName (m : MarkRef) : string :=
  match m with
  | MarkName n => n
  | MarkObj t _ => t
  end.

(** One round of the [for ... of marks.entries()] loop. *)
Definition markStep (validMarks : gset string) (path : list string)
    (invalidParentNode : bool)
    (st : list InvalidContentBlock * bool) (index : nat) (m : MarkRef)
    : list InvalidContentBlock * bool :=
  let '(invalidMarks, invalidParentMark) := st in
  let name := markName m in
  if has validMarks name then st (* continue *)
  else
    ({| blockType := mark;
        name := Some name;
        path := path ++ ["marks"; pretty index];
        invalidParentMark := invalidParentMark;
        invalidParentNode := invalidParentNode |} :: invalidMarks,
     true).

Definition checkMarks (validMarks : gset string) (path : list string)
    (invalidParentNode invalidParentMark : bool) (ms : option (list MarkRef))
    : list InvalidContentBlock * bool :=
  match ms with
  | Some ms =>
      let '(invalidMarks, invalidParentMark) :=
        forEachEntry (markStep validMarks path invalidParentNode)
                     0 ms ([], invalidParentMark) in
      ([] ++ invalidMarks, invalidParentMark)
  | None => ([], invalidParentMark)
  end.

(** [validNodes.has(type!)]: the set holds strings only, so [undefined] is
    never a member. *)
Definition hasType (validNodes : gset string) (t : option string) : bool :=
  match t with
  | Some t => has validNodes t
  | None => false
  end.

Definition checkType (validNodes : gset string) (json : JSONContent)
    (path : list string) (invalidParentNode invalidParentMark : bool)
    (invalidNodes : list InvalidContentBlock)
    : list InvalidContentBlock * bool :=
  if negb (hasType validNodes (type json)) then
    (invalidNodes ++
       [{| blockType := node;
           name := type json;
           path := path;
           invalidParentMark := invalidParentMark;
           invalidParentNode := invalidParentNode |}],
     true)
  else (invalidNodes, invalidParentNode).

Fixpoint checkForInvalidContent (validMarks validNodes : gset string)
    (json : JSONContent) (path : list string)
    (invalidParentNode invalidParentMark : bool) {struct json}
    : list InvalidContentBlock :=
  let '(invalidNodes, invalidParentMark) :=
    checkMarks validMarks path invalidParentNode invalidParentMark (marks json) in
  let '(invalidNodes, invalidParentNode) :=
    checkType validNodes json path invalidParentNode invalidParentMark invalidNodes in
  match json with
  | mkJSON _ _ _ (Some cs) _ =>
      let invalidContent :=
        forEachEntry
          (λ invalidContent index value,
             checkForInvalidContent validMarks validNodes value
               (path ++ ["content"; pretty index])
               invalidParentNode invalidParentMark
             ++ invalidContent)
          0 cs [] in
      invalidContent ++ invalidNodes
  | mkJSON _ _ _ None _ => invalidNodes
  end.

(** The [type], [marks] and [content] that destructuring reads off the
    [json] argument: an array has none of them. *)
Definition asJSONContent (json : JSONInput) : JSONContent :=
  match json with
  | One j => j
  | Many _ => mkJSON None None None None None
  end.

(** The value of [getInvalidContent({ schema, error, json })]. *)
Record InvalidContentDetails : Type := mkDetails {
  details_json : JSONInput;
  invalidContent : list InvalidContentBlock;
  details_transformers : Transformers;
  details_error : Error
}.

Definition getInvalidContent (schema : Schema) (error : Error) (json : JSONInput)
    : InvalidContentDetails :=
  let validMarks : gset string := list_to_set (schema_marks schema) in
  let validNodes : gset string := list_to_set (schema_nodes schema) in
  let invalidContent :=
    checkForInvalidContent validMarks validNodes (asJSONContent json) [] false false in
  {| details_json := json;
     invalidContent := invalidContent;
     details_transformers := transformers;
     details_error := error |}.

Section Pipeline.

(** The ProseMirror side: node construction from JSON may throw; the DOM
    parser and [elementFromString] return for every string.  The parser is
    handed [options.parseOptions] as it is read, [undefined] included. *)
Variables ProseMirrorNode Fragment ParseOptions DOMElement : Type.
Variable emptyParseOptions : ParseOptions.
Variable nodeFromJSON : Schema → JSONInput → Outcome ProseMirrorNode.
Variable Fragment_fromArray : list ProseMirrorNode → Fragment.
Variable elementFromString : string → DOMElement.
Variable parseSlice_content : Schema → DOMElement → option ParseOptions → Fragment.
Variable parse : Schema → DOMElement → option ParseOptions → ProseMirrorNode.

Record CreateNodeFromContentOptions : Type := mkOptions {
  slice : Optional bool;
  parseOptions : Optional ParseOptions
}.

(** [{ slice: true, parseOptions: {}, ...options }]: an own key of
    [options] replaces the default also when its value is [undefined]. *)
Definition withDefaults (options : option CreateNodeFromContentOptions)
    : CreateNodeFromContentOptions :=
  {| slice := spreadOver true (from_option slice absent options);
     parseOptions :=
       spreadOver emptyParseOptions (from_option parseOptions absent options) |}.

Inductive Built : Type :=
  | BuiltNode (n : ProseMirrorNode)
  | BuiltFragment (f : Fragment).

Inductive ConsoleEvent : Type :=
  | ConsoleLogError (error : Error)
  | ConsoleLogDetails (details : InvalidContentDetails)
  | ConsoleWarnInvalidContent (content : Content) (error : Error).

(** The body of the [try] block. *)
Definition buildFromJSON (schema : Schema) (content : JSONInput) : Outcome Built :=
  match content with
  | Many (item :: items) =>
      nodes ← mapM (λ item, nodeFromJSON schema (One item)) (item :: items);
      mret (BuiltFragment (Fragment_fromArray nodes))
  | _ =>
      n ← nodeFromJSON schema content;
      mret (BuiltNode n)
  end.

(** The text branch: [options.slice ? parser.parseSlice(...).content
    : parser.parse(...)], where [undefined] is falsy. *)
Definition buildFromText (schema : Schema) (content : string)
    (options : CreateNodeFromContentOptions) : Built :=
  let opts := readKey (parseOptions options) in
  if default false (readKey (slice options))
  then BuiltFragment (parseSlice_content schema (elementFromString content) opts)
  else BuiltNode (parse schema (elementFromString content) opts).

(** [createNodeFromContent] calls itself; [fuel] bounds the depth of these
    calls and [None] means that the bound was reached.  The result pairs
    the console output with the returned value or the thrown error. *)
Fixpoint createNodeFromContent (fuel : nat) (content : Content) (schema : Schema)
    (options : option CreateNodeFromContentOptions)
    : option (list ConsoleEvent * Outcome Built) :=
  match fuel with
  | 0 => None
  | S fuel =>
      let options := withDefaults options in
      match content with
      | CJSON json =>
          match buildFromJSON schema json with
          | Returned built => Some ([], Returned built)
          | Thrown error =>
              let details := getInvalidContent schema error json in
              match createNodeFromContent fuel (CString "") schema (Some options) with
              | Some (console, result) =>
                  Some (ConsoleLogError error
                        :: ConsoleLogDetails details
                        :: ConsoleWarnInvalidContent content error
                        :: console, result)
              | None => None
              end
          end
      | CString html => Some ([], Returned (buildFromText schema html options))
      | CNull | CUndefined =>
          createNodeFromContent fuel (CString "") schema (Some options)
      end
  end.

End Pipeline.

Arguments withDefaults {_} emptyParseOptions options.
Arguments mkOptions {_} slice parseOptions.
Arguments slice {_} _.
Arguments parseOptions {_} _.
Arguments BuiltNode {_ _} n.
Arguments BuiltFragment {_ _} f.
Arguments buildFromJSON {_ _} nodeFromJSON Fragment_fromArray schema content.
Arguments buildFromText {_ _ _ _} elementFromString
  parseSlice_content parse schema content options.
Arguments createNodeFromContent {_ _ _ _} emptyParseOptions nodeFromJSON
  Fragment_fromArray elementFromString parseSlice_content parse
  fuel content schema options.

End CreateNode.

(** ** Notions used to state the properties *)

Module Report.
Import UnknownContent.

(** [q] addresses a strict descendant of what [p] addresses: [q] extends
    [p] by at least one segment. *)
Definition strictDescendant (q p : list string) : Prop :=
  ∃ s, s ≠ [] ∧ q = p ++ s.

(** [q] addresses something inside the content of the node that [p]
    addresses. *)
Definition insideContentOf (q p : list string) : Prop :=
  ∃ i rest, q = p ++ "content" :: i :: rest.

(** The reading of [invalidParentNode] as a mark of strict descendants: in
    a report, the flag is set exactly on the entries whose path strictly
    extends the path of another entry. *)
Definition flagsStrictDescendants (report : list unknownContentBlock) : Prop :=
  ∀ b, b ∈ report →
    (invalidParentNode b = true
     ↔ ∃ b', b' ∈ report ∧ b' ≠ b ∧ strictDescendant (path b) (path b')).

(** The marks of a list that the schema does not know, with their indices,
    in declaration order. *)
Definition invalidMarks (validMarks : gset string) (ms : list MarkRef)
    : list (nat * MarkRef) :=
  filter (λ e, markName e.2 ∉ validMarks) (imap pair ms).

(** The entry reported for the [k]-th invalid mark of a node at [path]:
    the first one carries the flag the node was entered with. *)
Definition markBlock (path : list string) (invalidParentNode invalidParentMark : bool)
    (k : nat) (e : nat * MarkRef) : unknownContentBlock :=
  {| blockType := mark;
     name := markName e.2;
     attributes := markAttributes e.2;
     path := path ++ ["marks"; pretty e.1];
     invalidParentNode := invalidParentNode;
     invalidParentMark := match k with 0 => invalidParentMark | S _ => true end |}.

(** Every node type name and every mark type name of the tree is known. *)
Fixpoint allNamesKnown (validMarks validNodes : gset string) (json : JSONContent)
    {struct json} : bool :=
  from_option (has validNodes) true (type json)
  && from_option (forallb (λ m, has validMarks (markName m))) true (marks json)
  && match json with
     | mkJSON _ _ _ (Some cs) _ => forallb (allNamesKnown validMarks validNodes) cs
     | mkJSON _ _ _ None _ => true
     end.

(** The type name of a node that the validator reports: present, non-empty
    and unknown to the schema. *)
Definition unknownType (validNodes : gset string) (json : JSONContent)
    : option string :=
  match type json with
  | Some t => if truthy_string t && negb (has validNodes t) then Some t else None
  | None => None
  end.

(** The entry reported for a node of unknown type [t] at [path]. *)
Definition typeBlock (json : JSONContent) (t : string) (path : list string)
    (invalidParentNode invalidParentMark : bool) : unknownContentBlock :=
  {| blockType := node;
     name := t;
     attributes := default [] (attrs json);
     path := path;
     invalidParentNode := invalidParentNode;
     invalidParentMark := invalidParentMark |}.

Definition inputNodes (input : JSONInput) : list JSONContent :=
  match input with
  | One json => [json]
  | Many jsons => jsons
  end.

(** The document of the specification's example:
    [{type:"doc", content:[{type:"paragraph", marks:[{type:"bogusMark"}],
      content:[{type:"bogusNode"}]}]}]. *)
Definition exampleDoc : JSONContent :=
  mkJSON (Some "doc") None None
    (Some [ mkJSON (Some "paragraph") None
              (Some [MarkObj "bogusMark" None])
              (Some [ mkJSON (Some "bogusNode") None None None None ])
              None ])
    None.

(** An attribute name observed on some element with tag name [t]. *)
Definition observedAttribute (elements : list PlaceholderElement) (t x : string)
    : Prop :=
  ∃ el, el ∈ elements ∧ elTagName el = t ∧ x ∈ elAttributes el.

(** The class created for an element type. *)
Definition classOf (k : BlockType) : ExtensionClass :=
  match k with mark => MarkClass | node => NodeClass end.

(** The reading of the synthesizer as grouping by the pair of kind and tag
    name: every pair that occurs has exactly one extension of that kind and
    name, whose attribute names are those observed on the elements of the
    pair. *)
Definition groupedByKindAndTag (elements : list PlaceholderElement)
    (out : Extensions) : Prop :=
  ∀ k t,
    (∃ el, el ∈ elements ∧ elType el = k ∧ elTagName el = t) →
    ∃ i d,
      out !! i = Some d ∧ extClass d = classOf k ∧ extName d = t
      ∧ (∀ j d', out !! j = Some d' → extClass d' = classOf k → extName d' = t → j = i)
      ∧ ∀ x, x ∈ attributeNames d
             ↔ ∃ el, el ∈ elements ∧ elType el = k ∧ elTagName el = t
                     ∧ x ∈ elAttributes el.

End Report.

(** ** Notions used to state further properties *)

Module Addressing.
Import UnknownContent Report.

(** What a path of a report addresses. *)
Inductive Target : Type :=
  | AtNode (json : JSONContent)
  | AtMark (m : MarkRef).

(** [xs[key]] for an array and a string key: the element whose index, in
    decimal, is the key; [index] is the index of the head of [xs]. *)
Fixpoint atKey {A : Type} (key : string) (index : nat) (xs : list A) : option A :=
  match xs with
  | [] => None
  | x :: xs' => if decide (pretty index = key) then Some x else atKey key (S index) xs'
  end.

(** Replaying a path on a node: [json.content[key]...] for a pair of
    ['content'] and a key, [json.marks[key]] for a final pair of ['marks']
    and a key. *)
Fixpoint follow (path : list string) (json : JSONContent) : option Target :=
  match path with
  | [] => Some (AtNode json)
  | segment :: path' =>
      match path' with
      | [] => None
      | key :: rest =>
          if decide (segment = "marks") then
            match rest with
            | [] => AtMark <$> (ms ← marks json; atKey key 0 ms)
            | _ :: _ => None
            end
          else if decide (segment = "content") then
            child ← (cs ← content json; atKey key 0 cs); follow rest child
          else None
      end
  end.

(** Replaying a path on the argument of [getUnknownContent]: for an array
    the first segment selects the element. *)
Definition followInput (path : list string) (input : JSONInput) : option Target :=
  match input with
  | One json => follow path json
  | Many jsons =>
      match path with
      | [] => None
      | key :: rest => child ← atKey key 0 jsons; follow rest child
      end
  end.

(** The number of unknown names in a tree: the unknown marks of every
    node and the nodes of unknown type. *)
Fixpoint unknownCount (validMarks validNodes : gset string) (json : JSONContent)
    {struct json} : nat :=
  length (invalidMarks validMarks (default [] (marks json)))
  + match unknownType validNodes json with Some _ => 1 | None => 0 end
  + match json with
    | mkJSON _ _ _ (Some cs) _ =>
        foldr (λ child n, unknownCount validMarks validNodes child + n) 0 cs
    | mkJSON _ _ _ None _ => 0
    end.

(** A block with its path moved below [q]. *)
Definition prefixPath (q : list string) (b : unknownContentBlock)
    : unknownContentBlock :=
  {| blockType := blockType b;
     name := name b;
     attributes := attributes b;
     path := q ++ path b;
     invalidParentNode := invalidParentNode b;
     invalidParentMark := invalidParentMark b |}.

(** What an entry of the report of a node says: its path, taken from the
    node, leads to a mark or a node of the tree that carries the entry's
    name and attribute names, and the schema does not know the name. *)
Definition describes (validMarks validNodes : gset string) (json : JSONContent)
    (s : list string) (b : unknownContentBlock) : Prop :=
  match blockType b with
  | mark =>
      ∃ m, follow s json = Some (AtMark m)
           ∧ markName m = name b ∧ markAttributes m = attributes b
           ∧ name b ∉ validMarks
  | node =>
      ∃ j, follow s json = Some (AtNode j)
           ∧ type j = Some (name b) ∧ default [] (attrs j) = attributes b
           ∧ name b ≠ "" ∧ name b ∉ validNodes
  end.

(** The same for an entry of [getUnknownContent], with the path taken from
    the argument. *)
Definition pointsAtUnknown (schema : Schema) (input : JSONInput)
    (b : unknownContentBlock) : Prop :=
  match blockType b with
  | mark =>
      ∃ m, followInput (path b) input = Some (AtMark m)
           ∧ markName m = name b ∧ markAttributes m = attributes b
           ∧ name b ∉ schema_marks schema
  | node =>
      ∃ j, followInput (path b) input = Some (AtNode j)
           ∧ type j = Some (name b) ∧ default [] (attrs j) = attributes b
           ∧ name b ≠ "" ∧ name b ∉ schema_nodes schema
  end.

(** The unknown mark reported at path [m] wraps what the path [p]
    addresses: [m] is a mark of a node [q], and [p] is that node, or lies
    inside its content, or is a later mark of the same node. *)
Definition markedBy (p m : list string) : Prop :=
  ∃ q k, m = q ++ ["marks"; pretty k]
         ∧ (p = q
            ∨ insideContentOf p q
            ∨ ∃ k', k < k' ∧ p = q ++ ["marks"; pretty k']).

End Addressing.

(** ** Notions used to compare the two validators *)

Module Comparison.

(** An [unknownContentBlock] read as an [InvalidContentBlock]: the same
    entry without its attribute names. *)
Definition forget (b : UnknownContent.unknownContentBlock)
    : CreateNode.InvalidContentBlock :=
  {| CreateNode.blockType := UnknownContent.blockType b;
     CreateNode.name := Some (UnknownContent.name b);
     CreateNode.path := UnknownContent.path b;
     CreateNode.invalidParentNode := UnknownContent.invalidParentNode b;
     CreateNode.invalidParentMark := UnknownContent.invalidParentMark b |}.

(** Every node of the tree has a non-empty [type]. *)
Fixpoint allTyped (json : JSONContent) {struct json} : bool :=
  from_option truthy_string false (type json)
  && match json with
     | mkJSON _ _ _ (Some cs) _ => forallb allTyped cs
     | mkJSON _ _ _ None _ => true
     end.

(** An array of a node that the schema knows and a node that it does not
    know, and the schema. *)
Definition knownNode : JSONContent :=
  mkJSON (Some "paragraph") None None None None.

Definition unknownNode : JSONContent :=
  mkJSON (Some "callout") None None None None.

Definition mixedArray : JSONInput := Many [knownNode; unknownNode].

Definition paragraphSchema : Schema :=
  {| schema_nodes := ["doc"; "paragraph"; "text"]; schema_marks := [] |}.

End Comparison.

(** ** Notions used to describe the synthesized extensions *)

Module Synthesis.
Import UnknownContent Report.

(** The last element with tag name [t]. *)
Definition lastWithTag (elements : list PlaceholderElement) (t : string)
    : option PlaceholderElement :=
  last (filter (λ el, elTagName el = t) elements).

(** The tag names for which an entry is kept, in the order in which they
    are first seen. *)
Definition keptTags (elements : list PlaceholderElement) : list string :=
  newSet (filter (λ t, t ≠ "__proto__") (elTagName <$> elements)).

(** What an entry of the accumulator is after the elements: the placeholder
    made for the last element with its tag name, with the attribute names
    of all elements with that tag name. *)
Definition entryMade (options : PlaceholderExtensionOptions)
    (elements : list PlaceholderElement) (e : string * Generated) : Prop :=
  e.1 ≠ "__proto__"
  ∧ ∃ el, lastWithTag elements e.1 = Some el
          ∧ genNode e.2
            = createPlaceholder options (elType el) e.1 (genAttributes e.2)
          ∧ NoDup (genAttributes e.2)
          ∧ ∀ x, x ∈ genAttributes e.2 ↔ observedAttribute elements e.1 x.

(** The element that stands for a block of a report. *)
Definition elementOfBlock (b : unknownContentBlock) : PlaceholderElement :=
  {| elType := blockType b; elTagName := name b; elAttributes := attributes b |}.

(** The element that stands for an HTML element. *)
Definition elementOfHTML (toLowerCase : string → string) (element : HTMLElement)
    : PlaceholderElement :=
  {| elType := node;
     elTagName := toLowerCase (tagName element);
     elAttributes := getAttributeNames element |}.

(** A reported name is known to a schema as what it was reported as. *)
Definition knownAs (validMarks validNodes : gset string) (b : unknownContentBlock)
    : Prop :=
  name b ∈ match blockType b with node => validNodes | mark => validMarks end.

#[global] Instance ExtensionClass_eq_dec : EqDecision ExtensionClass.
Proof. solve_decision. Defined.

(** The names of the extensions of a class. *)
Definition namesOfClass (c : ExtensionClass) (extensions : Extensions)
    : list string :=
  extName <$> filter (λ d, extClass d = c) extensions.

(** A schema derivation for the examples: the node extensions and the mark
    extensions by name. *)
Definition schemaOfNames (extensions : Extensions) : Outcome Schema :=
  Returned {| schema_nodes := namesOfClass NodeClass extensions;
              schema_marks := namesOfClass MarkClass extensions |}.

(** A paragraph with an unknown mark and a child of unknown type. *)
Definition unknownInParagraph : JSONContent :=
  mkJSON (Some "paragraph") None (Some [MarkObj "glow" (Some ["hue"])])
    (Some [mkJSON (Some "widget") (Some ["id"]) None None None])
    None.

(** The calls of a parse that meets one element the schema has no rule
    for. *)
Definition oneUnknownElement (extensions : Extensions) (content : string)
    : Outcome (list (string + HTMLElement)) :=
  Returned [inr {| tagName := "MY-WIDGET"; getAttributeNames := ["id"] |}].

(** A document whose only node has a type and a mark of the same unknown
    name. *)
Definition sameNameTwice : JSONContent :=
  mkJSON (Some "callout") None (Some [MarkName "callout"]) None None.

End Synthesis.

(** ** Properties of the validator *)

Module UnknownContentFacts.
Import UnknownContent Report.

Lemma forEachEntry_cons {A St : Type} (body : St → nat → A → St) i x xs st :
  forEachEntry body i (x :: xs) st = forEachEntry body (S i) xs (body st i x).
Proof. reflexivity. Qed.

(** The loop is the left fold over the indexed elements. *)
Lemma forEachEntry_fold_left {A St : Type} (body : St → nat → A → St) i xs st :
  forEachEntry body i xs st
  = fold_left (λ st e, body st e.1 e.2) (imap (λ k, pair (i + k)) xs) st.
Proof.
  revert i st. induction xs as [|x xs IH]; intros i st; [done|].
  rewrite forEachEntry_cons, IH, imap_cons. simpl. rewrite Nat.add_0_r.
  f_equal. apply imap_ext. intros k y _. simpl. f_equal. lia.
Qed.

(** A loop that prepends each round's result builds the concatenation of
    the results in reverse order. *)
Lemma forEachEntry_prepend {A B : Type} (f : nat → A → list B) i xs acc :
  forEachEntry (λ acc index value, f index value ++ acc) i xs acc
  = mjoin (reverse (imap (λ k, f (i + k)) xs)) ++ acc.
Proof.
  revert i acc. induction xs as [|x xs IH]; intros i acc; [done|].
  rewrite forEachEntry_cons, IH, imap_cons, reverse_cons, join_app.
  simpl. rewrite app_nil_r, Nat.add_0_r, <- app_assoc.
  do 3 f_equal. apply imap_ext. intros k y _. simpl. f_equal. lia.
Qed.

Section Marks.
Variables (validMarks : gset string) (path : list string) (ipn : bool).

Lemma has_true (s : gset string) x : has s x = true ↔ x ∈ s.
Proof. unfold has. apply bool_decide_eq_true. Qed.

Lemma has_false (s : gset string) x : has s x = false ↔ x ∉ s.
Proof. unfold has. apply bool_decide_eq_false. Qed.

(** The state of the marks loop after the marks from index [i] on. *)
Lemma marks_loop i ms acc ipm :
  let invalid := filter (λ e, markName e.2 ∉ validMarks) (imap (λ k, pair (i + k)) ms) in
  forEachEntry (markStep validMarks path ipn) i ms (acc, ipm)
  = (reverse (imap (markBlock path ipn ipm) invalid) ++ acc,
     match invalid with [] => ipm | _ => true end).
Proof.
  revert i acc ipm. induction ms as [|m ms IH]; intros i acc ipm; [done|].
  cbn zeta. rewrite forEachEntry_cons, imap_cons, Nat.add_0_r.
  assert (Hshift : imap ((λ k, pair (i + k)) ∘ S) ms
                   = imap (λ k : nat, pair (S i + k)) ms).
  { apply imap_ext. intros k y _. simpl. f_equal. lia. }
  rewrite Hshift. unfold markStep at 2.
  destruct (has validMarks (markName m)) eqn:Hm.
  - apply has_true in Hm.
    rewrite filter_cons_False by (intros Hn; apply Hn; exact Hm).
    apply IH.
  - apply has_false in Hm. rewrite filter_cons_True by exact Hm.
    specialize (IH (S i)). cbn zeta in IH. rewrite IH.
    rewrite imap_cons, reverse_cons, <- app_assoc. simpl.
    f_equal; [|by destruct (filter _ _)].
    do 2 f_equal. apply imap_ext. by intros [|k] y _.
Qed.

Lemma checkMarks_Some ipm ms :
  checkMarks validMarks path ipn ipm (Some ms)
  = (reverse (imap (markBlock path ipn ipm) (invalidMarks validMarks ms)),
     match invalidMarks validMarks ms with [] => ipm | _ => true end).
Proof.
  unfold checkMarks. pose proof (marks_loop 0 ms [] ipm) as H.
  cbn zeta in H. rewrite H, app_nil_r. reflexivity.
Qed.
End Marks.


Section Unfolding.
Variables validMarks validNodes : gset string.

Lemma checkMarks_spec path ipn ipm ms :
  let invalid := invalidMarks validMarks (default [] ms) in
  checkMarks validMarks path ipn ipm ms
  = (reverse (imap (markBlock path ipn ipm) invalid),
     match invalid with [] => ipm | _ => true end).
Proof. destruct ms as [ms|]; [apply checkMarks_Some | reflexivity]. Qed.

Lemma checkType_spec json path ipn ipm acc :
  checkType validNodes json path ipn ipm acc
  = match unknownType validNodes json with
    | Some t => (acc ++ [typeBlock json t path ipn ipm], true)
    | None => (acc, ipn)
    end.
Proof.
  unfold checkType, unknownType.
  destruct (type json) as [t|]; [|done].
  by destruct (truthy_string t && negb (has validNodes t)).
Qed.

(** The report of a node: the reports of its children, last child first,
    then its own invalid marks, last mark first, then its own type. *)
Lemma checkForUnknownContent_unfold json path ipn ipm :
  let invalid := invalidMarks validMarks (default [] (marks json)) in
  let ipm' := match invalid with [] => ipm | _ => true end in
  let ipn' := match unknownType validNodes json with Some _ => true | None => ipn end in
  checkForUnknownContent validMarks validNodes json path ipn ipm
  = mjoin (reverse (imap
             (λ i child, checkForUnknownContent validMarks validNodes child
                           (path ++ ["content"; pretty i]) ipn' ipm')
             (default [] (content json))))
    ++ reverse (imap (markBlock path ipn ipm) invalid)
    ++ match unknownType validNodes json with
       | Some t => [typeBlock json t path ipn ipm']
       | None => []
       end.
Proof.
  cbn zeta.
  destruct json as [t a m cs x]; unfold checkForUnknownContent;
    fold (checkForUnknownContent validMarks validNodes).
  rewrite checkMarks_spec, checkType_spec. cbn [marks content default].
  destruct (unknownType validNodes _) as [t'|]; destruct cs as [cs|];
    cbn [default imap reverse mjoin]; rewrite ?forEachEntry_prepend, ?app_nil_r;
    reflexivity.
Qed.
End Unfolding.


(** *** Order of the report *)

(** C5: the report of a node at [path] consists of the reports of its
    children in reverse sibling order (the last child's entries first),
    all of them before the node's own entries; the node's own entries are
    its invalid-mark entries followed, when its type is unknown, by the
    entry of the node itself. *)
Theorem children_reported_before_node (validMarks validNodes : gset string)
    (json : JSONContent) (path : list string) (ipn ipm : bool) :
  let invalid := invalidMarks validMarks (default [] (marks json)) in
  let ipm' := match invalid with [] => ipm | _ => true end in
  let ipn' := match unknownType validNodes json with Some _ => true | None => ipn end in
  let children := default [] (content json) in
  let childReport i child :=
    checkForUnknownContent validMarks validNodes child
      (path ++ ["content"; pretty i]) ipn' ipm' in
  let ownMarks := reverse (imap (markBlock path ipn ipm) invalid) in
  let ownType :=
    match unknownType validNodes json with
    | Some t => [typeBlock json t path ipn ipm']
    | None => []
    end in
  checkForUnknownContent validMarks validNodes json path ipn ipm
  = mjoin (reverse (imap childReport children)) ++ ownMarks ++ ownType
  ∧ Forall (λ b, blockType b = mark ∧ ∃ i, UnknownContent.path b = path ++ ["marks"; i]) ownMarks
  ∧ Forall (λ b, blockType b = node ∧ UnknownContent.path b = path) ownType.
Proof.
  cbn zeta. split; [apply checkForUnknownContent_unfold|]. split.
  - apply Forall_forall. intros b Hb. rewrite elem_of_reverse in Hb.
    apply elem_of_lookup_imap in Hb as (k & e & -> & _). simpl. eauto.
  - destruct (unknownType validNodes json); repeat constructor.
Qed.

(** C6: the [if (marks)] block reports the invalid marks of one mark list
    in reverse declaration order, so the last invalid mark comes first; the
    first invalid mark in declaration order carries the flag the node was
    entered with and every later one carries [invalidParentMark = true]. *)
Theorem invalid_marks_reported_in_reverse (validMarks : gset string)
    (path : list string) (ipn ipm : bool) (ms : list MarkRef) :
  let invalid := invalidMarks validMarks ms in
  let reported := (checkMarks validMarks path ipn ipm (Some ms)).1 in
  name <$> reported = reverse ((λ e, markName e.2) <$> invalid)
  ∧ UnknownContent.path <$> reported
    = reverse ((λ e, path ++ ["marks"; pretty e.1]) <$> invalid)
  ∧ invalidParentMark <$> reported
    = reverse (imap (λ k _, match k with 0 => ipm | S _ => true end) invalid)
  ∧ ∀ k b, reverse reported !! k = Some b → 0 < k → invalidParentMark b = true.
Proof.
  cbn zeta. rewrite checkMarks_Some. cbn [fst].
  rewrite !fmap_reverse, reverse_involutive.
  repeat split.
  - f_equal. rewrite fmap_imap, <- imap_const. by apply imap_ext.
  - f_equal. rewrite fmap_imap, <- imap_const. by apply imap_ext.
  - f_equal. rewrite fmap_imap. by apply imap_ext.
  - intros k b Hb Hk. rewrite list_lookup_imap in Hb.
    destruct (invalidMarks validMarks ms !! k) as [e|]; [|done].
    injection Hb as <-. destruct k; [lia | done].
Qed.

(** Three marks, the first one known: the last one is reported first and
    only it carries the flag. *)
Example two_invalid_marks :
  getUnknownContent
    (One (mkJSON (Some "text") None
            (Some [MarkName "bold"; MarkObj "glow" (Some ["color"]); MarkName "blink"])
            None (Some "hi")))
    (mkSchema ["doc"; "text"] ["bold"])
  = [ {| blockType := mark; name := "blink"; attributes := [];
         path := ["marks"; "2"];
         invalidParentNode := false; invalidParentMark := true |};
      {| blockType := mark; name := "glow"; attributes := ["color"];
         path := ["marks"; "1"];
         invalidParentNode := false; invalidParentMark := false |} ].
Proof. vm_compute. reflexivity. Qed.

(** An array of top-level nodes: the paths start with the index, the
    report keeps the order of the array, and inside a node the last child
    comes first. *)
Example array_of_nodes :
  getUnknownContent
    (Many [ mkJSON (Some "paragraph") None None None None;
            mkJSON (Some "callout") (Some ["tone"]) None
              (Some [ mkJSON (Some "badge") None None None None;
                      mkJSON (Some "text") None None None (Some "x");
                      mkJSON (Some "chip") None None None None ]) None;
            mkJSON (Some "aside") None None None None ])
    (mkSchema ["doc"; "paragraph"; "text"] [])
  = [ {| blockType := node; name := "chip"; attributes := [];
         path := ["1"; "content"; "2"];
         invalidParentNode := true; invalidParentMark := false |};
      {| blockType := node; name := "badge"; attributes := [];
         path := ["1"; "content"; "0"];
         invalidParentNode := true; invalidParentMark := false |};
      {| blockType := node; name := "callout"; attributes := ["tone"];
         path := ["1"];
         invalidParentNode := false; invalidParentMark := false |};
      {| blockType := node; name := "aside"; attributes := [];
         path := ["2"];
         invalidParentNode := false; invalidParentMark := false |} ].
Proof. vm_compute. reflexivity. Qed.

(** A node without a [type], or with the empty string as [type], is not
    reported. *)
Example untyped_node_not_reported :
  getUnknownContent
    (Many [ mkJSON None None None None None; mkJSON (Some "") None None None None ])
    (mkSchema ["doc"] [])
  = [].
Proof. vm_compute. reflexivity. Qed.

(** *** Trees without unknown names *)

Lemma invalidMarks_known validMarks ms :
  forallb (λ m, has validMarks (markName m)) ms = true →
  invalidMarks validMarks ms = [].
Proof.
  intros H. unfold invalidMarks.
  apply elem_of_nil_inv. intros [i m] Hin.
  apply list_elem_of_filter in Hin as [Hbad Hin]. simpl in Hbad.
  apply elem_of_lookup_imap in Hin as (k & y & [= -> ->] & Hk).
  apply (proj1 (forallb_forall _ _)) with (x := y) in H.
  - apply has_true in H. by apply Hbad.
  - apply list_elem_of_In. by eapply list_elem_of_lookup_2.
Qed.

Lemma invalidMarks_known_opt validMarks ms :
  from_option (forallb (λ m, has validMarks (markName m))) true ms = true →
  invalidMarks validMarks (default [] ms) = [].
Proof. destruct ms; [apply invalidMarks_known | done]. Qed.

Lemma unknownType_known validNodes json :
  from_option (has validNodes) true (type json) = true →
  unknownType validNodes json = None.
Proof.
  unfold unknownType. destruct (type json) as [t|]; [|done].
  simpl. intros ->. by rewrite andb_false_r.
Qed.

Lemma known_report_empty validMarks validNodes json :
  allNamesKnown validMarks validNodes json = true →
  ∀ path ipn ipm,
    checkForUnknownContent validMarks validNodes json path ipn ipm = [].
Proof.
  induction json as [t a m x | t a m cs x IH] using JSONContent_children_ind;
    intros Hk path ipn ipm; rewrite checkForUnknownContent_unfold;
    cbn [allNamesKnown] in Hk;
    apply andb_prop in Hk as [Hk Hcs]; apply andb_prop in Hk as [Ht Hm];
    rewrite (unknownType_known _ _ Ht), (invalidMarks_known_opt _ _ Hm);
    cbn [content default imap reverse]; rewrite ?app_nil_r; [done|].
  apply join_nil_2, Forall_forall. intros r Hr.
  rewrite elem_of_reverse in Hr.
  apply elem_of_lookup_imap in Hr as (k & c & -> & Hc).
  rewrite Forall_lookup in IH. eapply IH; [done|].
  apply (proj1 (forallb_forall _ _)) with (x := c) in Hcs; [done|].
  apply list_elem_of_In. by eapply list_elem_of_lookup_2.
Qed.

(** C7: [getUnknownContent] returns a report for every tree, and the
    report is empty when every node type name and every mark type name of
    the input is a name of the schema. *)
Theorem known_content_has_empty_report (input : JSONInput) (schema : Schema) :
  (∃ report, getUnknownContent input schema = report)
  ∧ (Forall (λ json, allNamesKnown (list_to_set (schema_marks schema))
                       (list_to_set (schema_nodes schema)) json = true)
       (inputNodes input)
     → getUnknownContent input schema = []).
Proof.
  split; [by eexists|]. intros Hk. unfold getUnknownContent.
  destruct input as [json | jsons]; cbn [inputNodes] in Hk.
  - apply known_report_empty. by inversion Hk.
  - apply join_nil_2, Forall_forall. intros r Hr.
    apply elem_of_lookup_imap in Hr as (k & c & -> & Hc).
    apply known_report_empty. rewrite Forall_lookup in Hk. by eapply Hk.
Qed.


(** A tree whose names the schema knows, and its (empty) report. *)
Lemma known_content_has_empty_report_witness :
  let input := One (mkJSON (Some "doc") None None
                     (Some [mkJSON (Some "paragraph") None
                              (Some [MarkName "bold"; MarkObj "italic" (Some ["class"])])
                              (Some [mkJSON (Some "text") None None None (Some "hi")])
                              None])
                     None) in
  let schema := mkSchema ["doc"; "paragraph"; "text"] ["bold"; "italic"] in
  Forall (λ json, allNamesKnown (list_to_set (schema_marks schema))
                    (list_to_set (schema_nodes schema)) json = true)
    (inputNodes input)
  ∧ getUnknownContent input schema = [].
Proof.
  cbn zeta.
  assert (Forall (λ json, allNamesKnown
                   (list_to_set (schema_marks (mkSchema ["doc"; "paragraph"; "text"] ["bold"; "italic"])))
                   (list_to_set (schema_nodes (mkSchema ["doc"; "paragraph"; "text"] ["bold"; "italic"])))
                   json = true)
            (inputNodes (One (mkJSON (Some "doc") None None
                     (Some [mkJSON (Some "paragraph") None
                              (Some [MarkName "bold"; MarkObj "italic" (Some ["class"])])
                              (Some [mkJSON (Some "text") None None None (Some "hi")])
                              None])
                     None)))) as H.
  { constructor; [vm_compute; reflexivity | constructor]. }
  split; [exact H|].
  exact (proj2 (known_content_has_empty_report _ _) H).
Defined.

(** *** The example of the specification *)

Lemma has_list_to_set (l : list string) x : has (list_to_set l) x = bool_decide (x ∈ l).
Proof. unfold has. apply bool_decide_ext, elem_of_list_to_set. Qed.

(** C2: against a schema whose node names are exactly [doc], [paragraph]
    and [text] and whose mark names do not include [bogusMark], the report
    of the example document has exactly two entries: first the node
    [bogusNode] at [content,0,content,0], then the mark [bogusMark] at
    [content,0,marks,0] with [invalidParentNode = false]. *)
Theorem example_report (nodeNames markNames : list string) :
  (∀ x, x ∈ nodeNames ↔ x ∈ ["doc"; "paragraph"; "text"]) →
  "bogusMark" ∉ markNames →
  getUnknownContent (One exampleDoc) (mkSchema nodeNames markNames)
  = [ {| blockType := node; name := "bogusNode"; attributes := [];
         path := ["content"; "0"; "content"; "0"];
         invalidParentNode := false; invalidParentMark := true |};
      {| blockType := mark; name := "bogusMark"; attributes := [];
         path := ["content"; "0"; "marks"; "0"];
         invalidParentNode := false; invalidParentMark := false |} ].
Proof.
  intros Hnodes Hmarks.
  assert (∀ x, has (list_to_set nodeNames) x
               = bool_decide (x ∈ ["doc"; "paragraph"; "text"])) as Hn.
  { intros x. rewrite has_list_to_set. apply bool_decide_ext, Hnodes. }
  assert (has (list_to_set markNames) "bogusMark" = false) as Hm.
  { rewrite has_list_to_set. by apply bool_decide_eq_false. }
  unfold getUnknownContent, exampleDoc.
  cbn -[has pretty]. rewrite !Hn, !Hm.
  vm_compute. reflexivity.
Qed.


(** The example against a schema that lists the three node names in
    another order and knows one mark. *)
Lemma example_report_witness :
  (∀ x, x ∈ ["text"; "doc"; "paragraph"] ↔ x ∈ ["doc"; "paragraph"; "text"])
  ∧ ("bogusMark" ∉ ["bold"])
  ∧ getUnknownContent (One exampleDoc)
      (mkSchema ["text"; "doc"; "paragraph"] ["bold"])
    = [ {| blockType := node; name := "bogusNode"; attributes := [];
           path := ["content"; "0"; "content"; "0"];
           invalidParentNode := false; invalidParentMark := true |};
        {| blockType := mark; name := "bogusMark"; attributes := [];
           path := ["content"; "0"; "marks"; "0"];
           invalidParentNode := false; invalidParentMark := false |} ].
Proof.
  assert (∀ x : string, x ∈ ["text"; "doc"; "paragraph"]
                        ↔ x ∈ ["doc"; "paragraph"; "text"]) as Hnodes.
  { intros x. rewrite !elem_of_cons, !elem_of_nil. tauto. }
  assert ("bogusMark" ∉ ["bold"]) as Hmarks.
  { intros Hin. apply list_elem_of_singleton in Hin. discriminate Hin. }
  split; [exact Hnodes|]. split; [exact Hmarks|].
  exact (example_report _ _ Hnodes Hmarks).
Defined.

(** *** The [invalidParentNode] flag *)

Section Flags.
Variables validMarks validNodes : gset string.

Local Abbreviation check := (checkForUnknownContent validMarks validNodes).

(** Where an entry of a node's report comes from. *)
Lemma elem_of_report b json path ipn ipm :
  let invalid := invalidMarks validMarks (default [] (marks json)) in
  let ipm' := match invalid with [] => ipm | _ => true end in
  let ipn' := match unknownType validNodes json with Some _ => true | None => ipn end in
  b ∈ check json path ipn ipm ↔
    (∃ k child, default [] (content json) !! k = Some child
                ∧ b ∈ check child (path ++ ["content"; pretty k]) ipn' ipm')
    ∨ (∃ k e, invalid !! k = Some e ∧ b = markBlock path ipn ipm k e)
    ∨ (∃ t, unknownType validNodes json = Some t
            ∧ b = typeBlock json t path ipn ipm').
Proof.
  cbn zeta. rewrite checkForUnknownContent_unfold, !elem_of_app.
  rewrite list_elem_of_join, elem_of_reverse.
  f_equiv; [|f_equiv].
  - split.
    + intros (r & Hb & Hr). rewrite elem_of_reverse in Hr.
      apply elem_of_lookup_imap in Hr as (k & c & -> & Hc). eauto.
    + intros (k & c & Hc & Hb). eexists. split; [exact Hb|].
      rewrite elem_of_reverse.
      by apply (elem_of_lookup_imap_2
                  (λ i child, check child (path ++ ["content"; pretty i]) _ _)).
  - rewrite elem_of_lookup_imap. split.
    + intros (k & e & -> & He). eauto.
    + intros (k & e & He & ->). eauto.
  - destruct (unknownType validNodes json) as [t|].
    + rewrite list_elem_of_singleton. split.
      * intros ->. eauto.
      * by intros (? & [= <-] & ->).
    + rewrite elem_of_nil. split; [done|]. by intros (? & ? & _).
Qed.

(** Every path of a report extends the path the node was entered with. *)
Lemma report_path_extends json :
  ∀ path ipn ipm b, b ∈ check json path ipn ipm →
    ∃ s, UnknownContent.path b = path ++ s.
Proof.
  induction json as [t a m x | t a m cs x IH] using JSONContent_children_ind;
    intros path ipn ipm b Hb; apply elem_of_report in Hb;
    cbn [content default] in Hb;
    destruct Hb as [(k & c & Hc & Hb) | [(k & e & _ & ->) | (t' & _ & ->)]].
  - by destruct k.
  - by exists ["marks"; pretty e.1].
  - exists []. by rewrite app_nil_r.
  - rewrite Forall_lookup in IH.
    destruct (IH _ _ Hc _ _ _ _ Hb) as [s Hs].
    exists ("content" :: pretty k :: s). by rewrite Hs, <- app_assoc.
  - by exists ["marks"; pretty e.1].
  - exists []. by rewrite app_nil_r.
Qed.

(** No reported node holds, in its content, one of the node's own
    entries: those sit at [path] or at [path ++ ["marks"; i]]. *)
Lemma own_entry_outside_content json path ipn ipm b' s :
  b' ∈ check json path ipn ipm →
  length s = 0 ∨ (∃ i, s = ["marks"; i]) →
  ¬ insideContentOf (path ++ s) (UnknownContent.path b').
Proof.
  intros Hb' Hs (i & rest & Hp).
  destruct (report_path_extends _ _ _ _ _ Hb') as [s' Hs'].
  rewrite Hs', <- app_assoc in Hp. apply app_inv_head in Hp.
  destruct Hs as [Hs | [j ->]].
  - apply (f_equal length) in Hp. rewrite length_app in Hp. simpl in Hp. lia.
  - destruct s' as [|x s']; [discriminate Hp|].
    injection Hp as _ Hp. apply (f_equal length) in Hp.
    rewrite length_app in Hp. simpl in Hp. lia.
Qed.

(** The flag of an entry: inherited from the call, or set by a reported
    node of the same report whose content holds the entry. *)
Lemma flag_inside_reported_node json :
  ∀ path ipn ipm b, b ∈ check json path ipn ipm →
    (invalidParentNode b = true
     ↔ ipn = true
       ∨ ∃ b', b' ∈ check json path ipn ipm ∧ blockType b' = node
               ∧ insideContentOf (UnknownContent.path b) (UnknownContent.path b')).
Proof.
  assert (Hown : ∀ json path ipn ipm s,
            length s = 0 ∨ (∃ i, s = ["marks"; i]) →
            ipn = true ↔
            ipn = true
            ∨ ∃ b', b' ∈ check json path ipn ipm ∧ blockType b' = node
                    ∧ insideContentOf (path ++ s) (UnknownContent.path b')).
  { intros j path ipn ipm s Hs. split; [by left|].
    intros [? | (b' & Hb' & _ & Hin)]; [done|].
    by destruct (own_entry_outside_content _ _ _ _ _ _ Hb' Hs Hin). }
  induction json as [t a m x | t a m cs x IH] using JSONContent_children_ind;
    intros path ipn ipm b Hb; pose proof Hb as Hb0; apply elem_of_report in Hb;
    cbn [content default] in Hb;
    destruct Hb as [(k & c & Hc & Hb) | [(k & e & _ & ->) | (t' & Ht & ->)]].
  - by destruct k.
  - apply (Hown _ _ _ _ ["marks"; pretty e.1]). eauto.
  - pose proof (Hown (mkJSON t a m None x) path ipn ipm [] (or_introl eq_refl)) as H.
    by rewrite app_nil_r in H.
  - (* an entry of child [k] *)
    rewrite Forall_lookup in IH. rewrite (IH _ _ Hc _ _ _ _ Hb).
    destruct (report_path_extends _ _ _ _ _ Hb) as [s Hs]. split.
    + intros [Hipn | (b' & Hb' & Hn & Hin)].
      * destruct (unknownType validNodes _) as [t'|] eqn:Ht; [|by left].
        right. eexists. split; [|split].
        -- apply elem_of_report. right. right. eauto.
        -- done.
        -- exists (pretty k), s. by rewrite Hs, <- app_assoc.
      * right. exists b'. split; [|done].
        apply elem_of_report. left. eauto.
    + intros [-> | (b' & Hb' & Hn & i & rest & Hp)].
      * left. by destruct (unknownType validNodes _).
      * apply elem_of_report in Hb'. cbn [content default] in Hb'.
        destruct Hb' as [(k' & c' & Hc' & Hb') | [(? & ? & _ & ->) | (t' & Ht & ->)]].
        -- right.
           destruct (report_path_extends _ _ _ _ _ Hb') as [s' Hs'].
           assert (k' = k) as ->.
           { rewrite Hs, Hs', <- !app_assoc in Hp. apply app_inv_head in Hp.
             simpl in Hp. injection Hp as Hp _. by apply (inj pretty) in Hp. }
           simplify_eq. exists b'. split; [done|]. split; [done|]. by exists i, rest.
        -- done.
        -- left. by rewrite Ht.
  - apply (Hown _ _ _ _ ["marks"; pretty e.1]). eauto.
  - pose proof (Hown (mkJSON t a m (Some cs) x) path ipn ipm [] (or_introl eq_refl)) as H.
    by rewrite app_nil_r in H.
Qed.
End Flags.


(** C3, as amended: in the report of [getUnknownContent], an entry has
    [invalidParentNode = true] exactly when it lies inside the content of a
    node that the same report lists as unknown, that is, when its path
    extends the path of a node entry of the report by a [content] segment,
    an index and possibly more. *)
Theorem flag_iff_inside_reported_node (input : JSONInput) (schema : Schema)
    (b : unknownContentBlock) :
  b ∈ getUnknownContent input schema →
  (invalidParentNode b = true
   ↔ ∃ b', b' ∈ getUnknownContent input schema ∧ blockType b' = node
           ∧ insideContentOf (path b) (path b')).
Proof.
  unfold getUnknownContent. destruct input as [json | jsons]; intros Hb.
  - rewrite (flag_inside_reported_node _ _ _ _ _ _ _ Hb). split; [|by right].
    by intros [? | ?].
  - apply list_elem_of_join in Hb as (r & Hb & Hr).
    apply elem_of_lookup_imap in Hr as (k & json & -> & Hk).
    rewrite (flag_inside_reported_node _ _ _ _ _ _ _ Hb). split.
    + intros [? | (b' & Hb' & Hn & Hin)]; [done|].
      exists b'. split; [|done]. apply list_elem_of_join. eexists. split; [done|].
      by apply (elem_of_lookup_imap_2
                  (λ idx json, checkForUnknownContent _ _ json [pretty idx] false false)).
    + intros (b' & Hb' & Hn & i & rest & Hp). right.
      apply list_elem_of_join in Hb' as (r' & Hb' & Hr').
      apply elem_of_lookup_imap in Hr' as (k' & json' & -> & Hk').
      destruct (report_path_extends _ _ _ _ _ _ _ Hb) as [s Hs].
      destruct (report_path_extends _ _ _ _ _ _ _ Hb') as [s' Hs'].
      assert (k' = k) as ->.
      { rewrite Hs, Hs' in Hp. simpl in Hp. injection Hp as Hp _.
        by apply (inj pretty) in Hp. }
      simplify_eq. exists b'. split; [done|]. split; [done|]. by exists i, rest.
Qed.

(** An unknown node inside an unknown node: the inner entry is flagged and
    sits inside the content of the outer one. *)
Lemma flag_iff_inside_reported_node_witness :
  let input := One (mkJSON (Some "callout") None None
                      (Some [mkJSON (Some "badge") None None None None]) None) in
  let schema := mkSchema ["doc"; "text"] [] in
  let b := {| blockType := node; name := "badge"; attributes := [];
              path := ["content"; "0"];
              invalidParentNode := true; invalidParentMark := false |} in
  b ∈ getUnknownContent input schema
  ∧ (invalidParentNode b = true
     ↔ ∃ b', b' ∈ getUnknownContent input schema ∧ blockType b' = node
             ∧ insideContentOf (path b) (path b')).
Proof.
  cbn zeta.
  assert ({| blockType := node; name := "badge"; attributes := [];
             path := ["content"; "0"];
             invalidParentNode := true; invalidParentMark := false |}
          ∈ getUnknownContent
              (One (mkJSON (Some "callout") None None
                      (Some [mkJSON (Some "badge") None None None None]) None))
              (mkSchema ["doc"; "text"] [])) as H.
  { vm_compute. apply list_elem_of_here. }
  split; [exact H|].
  exact (flag_iff_inside_reported_node _ _ _ H).
Defined.

(** C3 as stated fails on a node of unknown type that carries an unknown
    mark: the mark's path [marks,0] strictly extends the node's path, yet
    the mark entry keeps [invalidParentNode = false]. *)
Lemma flag_not_iff_strict_descendant :
  ¬ flagsStrictDescendants
      (getUnknownContent
         (One (mkJSON (Some "callout") None (Some [MarkObj "glow" None]) None None))
         (mkSchema ["doc"; "text"] ["bold"])).
Proof.
  intros H.
  assert (getUnknownContent
            (One (mkJSON (Some "callout") None (Some [MarkObj "glow" None]) None None))
            (mkSchema ["doc"; "text"] ["bold"])
          = [ {| blockType := mark; name := "glow"; attributes := [];
                 path := ["marks"; "0"];
                 invalidParentNode := false; invalidParentMark := false |};
              {| blockType := node; name := "callout"; attributes := [];
                 path := [];
                 invalidParentNode := false; invalidParentMark := true |} ]) as Hr
    by (vm_compute; reflexivity).
  rewrite Hr in H. clear Hr.
  destruct (H _ (list_elem_of_here _ _)) as [_ Hflag].
  enough (false = true) by done. apply Hflag.
  eexists. split; [apply list_elem_of_further, list_elem_of_here|].
  split; [done|]. by exists ["marks"; "0"].
Qed.

End UnknownContentFacts.

(** ** Properties of the object model *)

Module ObjectFacts.

Example arrayIndex_examples :
  arrayIndex "0" = Some 0%N ∧ arrayIndex "42" = Some 42%N
  ∧ arrayIndex "4294967294" = Some 4294967294%N
  ∧ arrayIndex "4294967295" = None ∧ arrayIndex "042" = None
  ∧ arrayIndex "" = None ∧ arrayIndex "h1" = None ∧ arrayIndex "-1" = None.
Proof. vm_compute. repeat split. Qed.

(** Index keys come first, in numeric order; an assignment to an existing
    key keeps its place. *)
Example objectValues_order :
  objectValues
    (setProperty
       (setProperty
          (setProperty
             (setProperty (setProperty emptyObject "b" 1) "10" 2) "a" 3) "9" 4)
       "b" 5)
  = [4; 2; 5; 3].
Proof. vm_compute. reflexivity. Qed.

Example asciiLowerCase_tag : asciiLowerCase "CUSTOM-Widget1" = "custom-widget1".
Proof. reflexivity. Qed.

Section Own.
Context {V : Type}.
Implicit Types (l : list (string * V)) (k : string) (v : V).

Lemma lookupOwn_None k l : lookupOwn k l = None ↔ k ∉ l.*1.
Proof.
  induction l as [|[k' v'] l IH]; simpl.
  - split; [intros _; apply not_elem_of_nil | done].
  - rewrite not_elem_of_cons. case_decide as Hk.
    + split; [done | intros [Hne _]; by subst].
    + rewrite IH. split; [by split | by intros [_ ?]].
Qed.

Lemma lookupOwn_Some_elem k v l : lookupOwn k l = Some v → (k, v) ∈ l.
Proof.
  induction l as [|[k' v'] l IH]; simpl; [done|].
  case_decide; [intros [= ->]; subst; left | right; auto].
Qed.

Lemma assignOwn_keys k v l :
  (assignOwn k v l).*1 = if decide (k ∈ l.*1) then l.*1 else l.*1 ++ [k].
Proof.
  induction l as [|[k' v'] l IH].
  - destruct (decide (k ∈ ([] : list (string * V)).*1)) as [Hin|]; [|done].
    by apply elem_of_nil in Hin.
  - cbn [assignOwn]. destruct (decide (k' = k)) as [->|Hk].
    + rewrite decide_True by (simpl; left). done.
    + cbn [fmap list_fmap fst]. rewrite IH.
      destruct (decide (k ∈ l.*1)) as [Hin|Hin].
      * by rewrite decide_True by (by right).
      * rewrite decide_False; [done|].
        rewrite not_elem_of_cons. split; [done|exact Hin].
Qed.

Lemma assignOwn_Forall (P : string * V → Prop) k v l :
  NoDup l.*1 →
  P (k, v) → Forall (λ e, e.1 ≠ k → P e) l → Forall P (assignOwn k v l).
Proof.
  intros Hnd Hk Hl. induction Hl as [|[k' v'] l He Hl IH]; simpl.
  - by constructor.
  - apply NoDup_cons in Hnd as [Hk' Hnd]. case_decide; subst.
    + constructor; [done|]. apply Forall_forall. intros [k'' v''] Hin.
      rewrite Forall_forall in Hl. apply (Hl _ Hin). simpl. intros ->.
      apply Hk'. by apply (list_elem_of_fmap_2 fst) in Hin.
    + constructor; [by apply He | by apply IH].
Qed.

(** [Object.values] lists every own property once. *)
Lemma objectValues_perm (o : JSObject V) : objectValues o ≡ₚ (own o).*2.
Proof.
  unfold objectValues. rewrite merge_sort_Permutation.
  induction (own o) as [|[k v] l IH]; [done|].
  unfold indexedEntries, namedEntries in *. cbn [omap list_omap fst snd].
  rewrite filter_cons. cbn [fst]. destruct (arrayIndex k) as [n|] eqn:Hk.
  - rewrite decide_False by done. simpl. by rewrite IH.
  - rewrite decide_True by done. simpl.
    rewrite <- Permutation_middle. by rewrite IH.
Qed.

Lemma arrayIndex_pretty k n : arrayIndex k = Some n → pretty n = k.
Proof.
  unfold arrayIndex. destruct k as [|c k]; [done|].
  destruct (parseDigits 0 (String c k)) as [m|]; [|done].
  case_decide as H; [|done]. intros [= <-]. by destruct H.
Qed.

(** [Object.keys] lists every own key once. *)
Lemma objectKeys_perm (o : JSObject V) : objectKeys o ≡ₚ (own o).*1.
Proof.
  unfold objectKeys. rewrite merge_sort_Permutation.
  induction (own o) as [|[k v] l IH]; [done|].
  unfold indexedEntries, namedEntries in *. cbn [omap list_omap fst snd].
  rewrite filter_cons. cbn [fst]. destruct (arrayIndex k) as [n|] eqn:Hk.
  - rewrite decide_False by done. simpl.
    rewrite (arrayIndex_pretty _ _ Hk). by rewrite IH.
  - rewrite decide_True by done. simpl.
    rewrite <- Permutation_middle. by rewrite IH.
Qed.
End Own.

End ObjectFacts.

(** ** Properties of the placeholder synthesizer *)

Module PlaceholderFacts.
Import UnknownContent Report Synthesis ObjectFacts.

Lemma newSet_from (l acc : list string) :
  NoDup acc →
  let s := fold_left (λ s x, if decide (x ∈ s) then s else s ++ [x]) l acc in
  NoDup s ∧ ∀ x, x ∈ s ↔ x ∈ acc ∨ x ∈ l.
Proof.
  revert acc. induction l as [|y l IH]; intros acc Hacc; cbn zeta; simpl.
  - split; [done|]. intros x. rewrite elem_of_nil. tauto.
  - destruct (decide (y ∈ acc)) as [Hy|Hy].
    + destruct (IH acc Hacc) as [Hnd Hin]. split; [done|].
      intros x. rewrite Hin, elem_of_cons. split; [tauto|].
      intros [?|[->|?]]; tauto.
    + assert (NoDup (acc ++ [y])) as Hacc'.
      { apply NoDup_app. split; [done|]. split; [|apply NoDup_singleton].
        intros x Hx ->%list_elem_of_singleton. done. }
      destruct (IH _ Hacc') as [Hnd Hin]. split; [done|].
      intros x. rewrite Hin, elem_of_app, list_elem_of_singleton, elem_of_cons. tauto.
Qed.

Lemma NoDup_newSet l : NoDup (newSet l).
Proof. apply (newSet_from l []), NoDup_nil_2. Qed.

Lemma elem_of_newSet l x : x ∈ newSet l ↔ x ∈ l.
Proof.
  destruct (newSet_from l [] (NoDup_nil_2)) as [_ H]. unfold newSet.
  rewrite H, elem_of_nil. tauto.
Qed.

Lemma observedAttribute_snoc elements el t x :
  observedAttribute (elements ++ [el]) t x
  ↔ observedAttribute elements t x ∨ (elTagName el = t ∧ x ∈ elAttributes el).
Proof.
  unfold observedAttribute. split.
  - intros (el' & [Hin | ->%list_elem_of_singleton]%elem_of_app & Ht & Hx); eauto.
  - intros [(el' & Hin & Ht & Hx) | [Ht Hx]].
    + exists el'. rewrite elem_of_app. eauto.
    + exists el. rewrite elem_of_app, list_elem_of_singleton. eauto.
Qed.

Lemma newSet_snoc l x :
  newSet (l ++ [x]) = if decide (x ∈ l) then newSet l else newSet l ++ [x].
Proof.
  unfold newSet at 1. rewrite fold_left_app. simpl. fold (newSet l).
  destruct (decide (x ∈ newSet l)) as [Hin|Hin]; rewrite elem_of_newSet in Hin.
  - by rewrite decide_True.
  - by rewrite decide_False.
Qed.

Lemma lastWithTag_snoc elements el t :
  lastWithTag (elements ++ [el]) t
  = if decide (elTagName el = t) then Some el else lastWithTag elements t.
Proof.
  unfold lastWithTag. rewrite filter_app, filter_cons, filter_nil.
  case_decide; [apply last_snoc | by rewrite app_nil_r].
Qed.

Lemma keptTags_snoc elements el :
  keptTags (elements ++ [el])
  = if decide (elTagName el = "__proto__") then keptTags elements
    else if decide (elTagName el ∈ keptTags elements) then keptTags elements
    else keptTags elements ++ [elTagName el].
Proof.
  unfold keptTags. rewrite fmap_app, filter_app. simpl.
  rewrite filter_cons, filter_nil.
  destruct (decide (elTagName el = "__proto__")) as [Hp|Hp].
  - rewrite decide_False by (by intros ?). by rewrite app_nil_r.
  - rewrite decide_True by done. rewrite newSet_snoc.
    destruct (decide (elTagName el ∈ filter _ _)) as [Hin|Hin].
    + by rewrite decide_True by (by apply elem_of_newSet).
    + by rewrite decide_False by (by rewrite elem_of_newSet).
Qed.

Lemma elem_of_keptTags elements t :
  t ∈ keptTags elements ↔ t ∈ elTagName <$> elements ∧ t ≠ "__proto__".
Proof.
  unfold keptTags. rewrite elem_of_newSet, list_elem_of_filter. tauto.
Qed.

Lemma entryMade_snoc_other options elements el e :
  elTagName el ≠ e.1 →
  entryMade options elements e → entryMade options (elements ++ [el]) e.
Proof.
  intros Hne (Hp & el' & Hlast & Hnode & Hnd & Hx). split; [done|].
  exists el'. rewrite lastWithTag_snoc, decide_False by done.
  split; [done|]. split; [done|]. split; [done|].
  intros x. rewrite Hx, observedAttribute_snoc. split; [by left|].
  by intros [? | [? _]].
Qed.

(** The accumulator after the [reduce], for any elements. *)
Lemma merge_invariant_all options elements :
  let o := fold_left (mergeElement options) elements emptyObject in
  (own o).*1 = keptTags elements ∧ Forall (entryMade options elements) (own o).
Proof.
  induction elements as [|el elements IH] using rev_ind; cbn zeta.
  - split; [done | constructor].
  - destruct IH as [Hkeys Hok]. rewrite fold_left_app. simpl.
    set (o := fold_left (mergeElement options) elements emptyObject) in *.
    unfold mergeElement, setProperty. rewrite keptTags_snoc.
    destruct (decide (elTagName el = "__proto__")) as [Hp|Hp]; simpl.
    + split; [done|]. eapply Forall_impl; [exact Hok|].
      intros e He. apply entryMade_snoc_other; [|done].
      destruct He as [Hne _]. congruence.
    + set (attributes := newSet (seenBefore o (elTagName el) ++ elAttributes el)).
      assert (Hseen : ∀ x, x ∈ seenBefore o (elTagName el)
                           ↔ observedAttribute elements (elTagName el) x).
      { intros x. unfold seenBefore.
        destruct (lookupOwn (elTagName el) (own o)) as [g|] eqn:Hg.
        - apply lookupOwn_Some_elem in Hg. rewrite Forall_forall in Hok.
          by destruct (Hok _ Hg) as (_ & _ & _ & _ & _ & ->).
        - rewrite decide_False by exact Hp. apply lookupOwn_None in Hg.
          rewrite Hkeys, elem_of_keptTags in Hg.
          split; [by intros ?%elem_of_nil|].
          intros (el' & Hin & Ht & _). destruct Hg. split; [|done].
          rewrite <- Ht. by apply list_elem_of_fmap_2. }
      split.
      * rewrite assignOwn_keys, Hkeys. by destruct (decide (elTagName el ∈ keptTags elements)).
      * apply assignOwn_Forall.
        -- rewrite Hkeys. apply NoDup_newSet.
        -- split; [done|]. exists el. simpl.
           rewrite lastWithTag_snoc, decide_True by done.
           split; [done|]. split; [done|]. split; [apply NoDup_newSet|].
           intros x. unfold attributes.
           rewrite elem_of_newSet, elem_of_app, Hseen, observedAttribute_snoc. tauto.
        -- eapply Forall_impl; [exact Hok|]. intros e He Hne.
           by apply entryMade_snoc_other.
Qed.

Lemma elem_of_generated elements options d :
  d ∈ generatePlaceholderNodeExtensions elements options
  ↔ ∃ e, e ∈ own (fold_left (mergeElement options) elements emptyObject)
         ∧ d = genNode e.2.
Proof.
  unfold generatePlaceholderNodeExtensions. cbn zeta.
  rewrite list_elem_of_fmap. setoid_rewrite objectValues_perm.
  setoid_rewrite list_elem_of_fmap. split.
  - intros (g & -> & e & -> & He). eauto.
  - intros (e & He & ->). eauto.
Qed.

Lemma generated_names elements options t :
  t ∈ extName <$> generatePlaceholderNodeExtensions elements options
  ↔ t ∈ elTagName <$> elements ∧ t ≠ "__proto__".
Proof.
  destruct (merge_invariant_all options elements) as [Hkeys Hok].
  rewrite Forall_forall in Hok.
  rewrite <- elem_of_keptTags, <- Hkeys, !list_elem_of_fmap. split.
  - intros (d & -> & (e & He & ->)%elem_of_generated). exists e. split; [|done].
    destruct (Hok _ He) as (_ & el & _ & -> & _). done.
  - intros (e & -> & He). exists (genNode e.2). split.
    + destruct (Hok _ He) as (_ & el & _ & -> & _). done.
    + apply elem_of_generated. eauto.
Qed.

Lemma generated_made elements options d :
  d ∈ generatePlaceholderNodeExtensions elements options →
  ∃ el attributes,
    lastWithTag elements (extName d) = Some el
    ∧ d = createPlaceholder options (elType el) (extName d) attributes
    ∧ NoDup attributes
    ∧ ∀ x, x ∈ attributes ↔ observedAttribute elements (extName d) x.
Proof.
  destruct (merge_invariant_all options elements) as [_ Hok].
  rewrite Forall_forall in Hok.
  intros (e & He & ->)%elem_of_generated.
  destruct (Hok _ He) as (_ & el & Hlast & Hnode & Hnd & Hx).
  exists el, (genAttributes e.2). rewrite Hnode. simpl. done.
Qed.

Lemma lastWithTag_Some elements t el :
  lastWithTag elements t = Some el → el ∈ elements ∧ elTagName el = t.
Proof.
  unfold lastWithTag. intros [l' Hl]%last_Some.
  assert (el ∈ filter (λ el, elTagName el = t) elements) as Hin.
  { rewrite Hl. apply elem_of_app. right. by apply list_elem_of_singleton. }
  apply list_elem_of_filter in Hin. tauto.
Qed.


Lemma names_of_entries options elements l :
  Forall (entryMade options elements) l →
  extName <$> (genNode <$> l.*2) = l.*1.
Proof.
  induction 1 as [|e l He _ IH]; [done|]. rewrite !fmap_cons, IH. f_equal.
  destruct He as (_ & el & _ & -> & _). done.
Qed.


Lemma generated_names_perm elements options :
  extName <$> generatePlaceholderNodeExtensions elements options
  ≡ₚ keptTags elements.
Proof.
  unfold generatePlaceholderNodeExtensions. cbn zeta.
  destruct (merge_invariant_all options elements) as [Hkeys Hok].
  rewrite <- Hkeys, <- (names_of_entries options elements _ Hok).
  by rewrite (objectValues_perm (fold_left (mergeElement options) elements emptyObject)).
Qed.

(** *** The attributes that a placeholder declares *)

Lemma declareAttributes_keys attributes :
  (own (declareAttributes attributes)).*1
  = newSet (filter (λ x, x ≠ "__proto__") attributes).
Proof.
  unfold declareAttributes.
  induction attributes as [|x attributes IH] using rev_ind; [done|].
  rewrite fold_left_app, filter_app, filter_cons, filter_nil. cbn [fold_left].
  set (o := fold_left _ attributes emptyObject) in *.
  unfold setProperty. destruct (decide (x = "__proto__")) as [Hp|Hp]; cbn [own].
  - rewrite decide_False by (by intros ?). by rewrite app_nil_r.
  - rewrite decide_True by done. rewrite assignOwn_keys, IH, newSet_snoc.
    destruct (decide (x ∈ filter _ _)) as [Hin|Hin].
    + by rewrite decide_True by (by apply elem_of_newSet).
    + by rewrite decide_False by (by rewrite elem_of_newSet).
Qed.

Lemma attributeNames_perm options type t attributes :
  attributeNames (createPlaceholder options type t attributes)
  ≡ₚ newSet (filter (λ x, x ≠ "__proto__") attributes).
Proof.
  unfold attributeNames. cbn [createPlaceholder addAttributes from_option].
  by rewrite objectKeys_perm, declareAttributes_keys.
Qed.

(** A placeholder declares the names of its set, each once, except
    ["__proto__"]. *)
Lemma elem_of_attributeNames options type t attributes x :
  x ∈ attributeNames (createPlaceholder options type t attributes)
  ↔ x ∈ attributes ∧ x ≠ "__proto__".
Proof.
  rewrite attributeNames_perm, elem_of_newSet, list_elem_of_filter. tauto.
Qed.

Lemma NoDup_attributeNames options type t attributes :
  NoDup (attributeNames (createPlaceholder options type t attributes)).
Proof. rewrite attributeNames_perm. apply NoDup_newSet. Qed.

(** C4, as amended: the synthesizer groups the elements by tag name alone.
    For every sequence of elements, no two extensions have the same name;
    a tag name other than ["__proto__"] is the name of an extension exactly
    when an element has it; and an attribute name other than ["__proto__"]
    is declared by the extension of a tag name exactly when an element with
    that tag name, of either kind, has it: the sets are merged by union. *)
Theorem one_placeholder_per_tag (elements : list PlaceholderElement)
    (options : PlaceholderExtensionOptions) :
  let out := generatePlaceholderNodeExtensions elements options in
  NoDup (extName <$> out)
  ∧ (∀ t, t ≠ "__proto__" →
       (t ∈ extName <$> out ↔ t ∈ elTagName <$> elements))
  ∧ ∀ d, d ∈ out →
      NoDup (attributeNames d)
      ∧ ∀ x, x ≠ "__proto__" →
          (x ∈ attributeNames d ↔ observedAttribute elements (extName d) x).
Proof.
  cbn zeta. split; [|split].
  - rewrite generated_names_perm. apply NoDup_newSet.
  - intros t Ht. rewrite generated_names. tauto.
  - intros d Hd.
    destruct (generated_made _ _ _ Hd) as (el & attributes & _ & Hmade & _ & Hx).
    assert (attributeNames d
            = attributeNames
                (createPlaceholder options (elType el) (extName d) attributes))
      as -> by (f_equal; exact Hmade).
    split; [apply NoDup_attributeNames|].
    intros x Hne. rewrite elem_of_attributeNames, Hx. tauto.
Qed.

(** Three elements over two tag names, the first tag seen twice with
    different attributes and kinds. *)
Lemma one_placeholder_per_tag_witness :
  let elements :=
    [ {| elType := node; elTagName := "custom-widget"; elAttributes := ["data-id"] |};
      {| elType := node; elTagName := "x-note"; elAttributes := [] |};
      {| elType := mark; elTagName := "custom-widget";
         elAttributes := ["class"; "data-id"] |} ] in
  let out := generatePlaceholderNodeExtensions elements (mkOptions None) in
  let d := createPlaceholder (mkOptions None) mark "custom-widget"
             ["data-id"; "class"] in
  "custom-widget" ≠ "__proto__"
  ∧ "class" ≠ "__proto__"
  ∧ d ∈ out
  ∧ NoDup (extName <$> out)
  ∧ ("custom-widget" ∈ extName <$> out ↔ "custom-widget" ∈ elTagName <$> elements)
  ∧ NoDup (attributeNames d)
  ∧ ("class" ∈ attributeNames d ↔ observedAttribute elements (extName d) "class").
Proof.
  cbn zeta.
  assert ("custom-widget" ≠ "__proto__") as Htag by discriminate.
  assert ("class" ≠ "__proto__") as Hattr by discriminate.
  assert (createPlaceholder (mkOptions None) mark "custom-widget" ["data-id"; "class"]
          ∈ generatePlaceholderNodeExtensions
              [ {| elType := node; elTagName := "custom-widget";
                   elAttributes := ["data-id"] |};
                {| elType := node; elTagName := "x-note"; elAttributes := [] |};
                {| elType := mark; elTagName := "custom-widget";
                   elAttributes := ["class"; "data-id"] |} ]
              (mkOptions None)) as Hin.
  { vm_compute. apply list_elem_of_here. }
  split; [exact Htag|]. split; [exact Hattr|]. split; [exact Hin|].
  destruct (one_placeholder_per_tag
              [ {| elType := node; elTagName := "custom-widget";
                   elAttributes := ["data-id"] |};
                {| elType := node; elTagName := "x-note"; elAttributes := [] |};
                {| elType := mark; elTagName := "custom-widget";
                   elAttributes := ["class"; "data-id"] |} ]
              (mkOptions None)) as (Hnames & Htags & Hattrs).
  split; [exact Hnames|]. split; [exact (Htags _ Htag)|].
  destruct (Hattrs _ Hin) as [Hnd Hunion].
  split; [exact Hnd|]. exact (Hunion _ Hattr).
Defined.

(** C4 as stated fails when a mark and a node of the same name are both
    unknown: the two elements share one accumulator key, and the only
    extension emitted is a node that merges the attributes of both. *)
Lemma not_grouped_by_kind_and_tag :
  let elements :=
    [ {| elType := mark; elTagName := "callout"; elAttributes := ["color"] |};
      {| elType := node; elTagName := "callout"; elAttributes := ["id"] |} ] in
  ¬ groupedByKindAndTag elements
      (generatePlaceholderNodeExtensions elements (mkOptions None)).
Proof.
  cbn zeta. intros H.
  destruct (H mark "callout") as (i & d & Hi & Hclass & _).
  { eexists. split; [apply list_elem_of_here|done]. }
  destruct i as [|i]; [|done].
  vm_compute in Hi. injection Hi as <-. discriminate Hclass.
Qed.

(** An element named ["__proto__"] leaves no extension behind: its
    assignment replaces the prototype of the accumulator. *)
Remark proto_element_is_dropped (k : BlockType) (attributes : list string)
    (options : PlaceholderExtensionOptions) :
  generatePlaceholderNodeExtensions
    [ {| elType := k; elTagName := "__proto__"; elAttributes := attributes |} ]
    options
  = [].
Proof. reflexivity. Qed.

End PlaceholderFacts.

(** ** Properties of the entry points *)

Module EntryPointFacts.
Import UnknownContent Report.

Section EntryPoints.
Variable deriveSchema : Extensions → Outcome Schema.
Variable catchAllCalls : Extensions → string → Outcome (list (string + HTMLElement)).
Variable toLowerCase : string → string.

Local Abbreviation probe := (getUnknownHTMLElements catchAllCalls).
Local Abbreviation placeholders :=
  (createPlaceholderExtensions deriveSchema catchAllCalls toLowerCase).

Lemma length_eqb_nil {A} (l : list A) : Nat.eqb (length l) 0 = true ↔ l = [].
Proof. destruct l; simpl; split; done. Qed.

(** C9: for HTML content with unknown elements the result is the caller's
    list without the extensions named [collaboration], the others in
    their order, followed by the synthesized extensions; for JSON content
    the result starts with the caller's whole list. *)
Theorem collaboration_removed_for_html_only (extensions : Extensions)
    (options : PlaceholderExtensionOptions) :
  (∀ html unknown,
     html ≠ "" →
     probe html extensions = Returned unknown →
     unknown ≠ [] →
     placeholders (CString html) extensions options
     = Returned
         (filter (λ extension, extName extension ≠ "collaboration") extensions
          ++ generatePlaceholderNodeExtensions
               ((λ element, {| elType := node;
                               elTagName := toLowerCase (tagName element);
                               elAttributes := getAttributeNames element |})
                  <$> unknown)
               options))
  ∧ (∀ json result,
       placeholders (CJSON json) extensions options = Returned result →
       ∃ generated, result = extensions ++ generated).
Proof.
  split.
  - intros html unknown Hhtml Hprobe Hunknown.
    unfold createPlaceholderExtensions. cbn [truthy_content].
    assert (truthy_string html = true) as ->.
    { unfold truthy_string. apply negb_true_iff, String.eqb_neq, Hhtml. }
    cbn [negb]. rewrite Hprobe. cbn [mbind Outcome_bind].
    destruct (Nat.eqb (length unknown) 0) eqn:Hlen; [|done].
    by apply length_eqb_nil in Hlen.
  - intros json result. unfold createPlaceholderExtensions.
    cbn [truthy_content negb].
    destruct (deriveSchema extensions) as [schema|e]; cbn [mbind Outcome_bind];
      [|done].
    destruct (Nat.eqb (length (getUnknownContent json schema)) 0).
    + intros [= <-]. exists []. by rewrite app_nil_r.
    + intros [= <-]. by eexists.
Qed.

(** C10: for [null], [undefined] and the empty string both entry points
    return at once, [false] and the caller's list, whatever the schema
    derivation and the parser would do. *)
Theorem falsy_content_short_circuits (extensions : Extensions)
    (options : PlaceholderExtensionOptions) :
  Forall (λ content,
            truthy_content content = false
            ∧ isContentInvalid deriveSchema catchAllCalls content extensions
              = Returned false
            ∧ placeholders content extensions options = Returned extensions)
    [CNull; CUndefined; CString ""].
Proof. repeat constructor. Qed.
End EntryPoints.

(** Falsy content returns even where every external step would throw. *)
Example falsy_content_with_failing_externals :
  let failing : Error := mkError "no schema" in
  let extensions := [mkExtension PlainClass "history" None None None None [] None] in
  isContentInvalid (λ _, Thrown failing) (λ _ _, Thrown failing) CNull extensions
  = Returned false
  ∧ createPlaceholderExtensions (λ _, Thrown failing) (λ _ _, Thrown failing)
      asciiLowerCase (CString "") extensions (mkOptions None)
    = Returned extensions
  ∧ isContentInvalid (λ _, Thrown failing) (λ _ _, Thrown failing)
      (CJSON (Many [])) extensions
    = Thrown failing.
Proof. repeat split. Qed.

(** A caller with a [collaboration] extension and a parser that meets one
    unknown element. *)
Lemma collaboration_removed_for_html_only_witness :
  let ext n := mkExtension PlainClass n None None None None [] None in
  let extensions := [ext "collaboration"; ext "history"] in
  let deriveSchema : Extensions → Outcome Schema :=
    λ _, Returned (mkSchema ["doc"; "text"] []) in
  let catchAllCalls : Extensions → string → Outcome (list (string + HTMLElement)) :=
    λ _ _, Returned [inr (mkElement "CUSTOM-WIDGET" ["data-id"])] in
  let html := "<custom-widget data-id=5></custom-widget>" in
  let unknown := [mkElement "CUSTOM-WIDGET" ["data-id"]] in
  let json := One (mkJSON (Some "callout") None None None None) in
  let result :=
    extensions
    ++ generatePlaceholderNodeExtensions
         [ {| elType := node; elTagName := "callout"; elAttributes := [] |} ]
         (mkOptions None) in
  (html ≠ ""
   ∧ getUnknownHTMLElements catchAllCalls html extensions = Returned unknown
   ∧ unknown ≠ []
   ∧ createPlaceholderExtensions deriveSchema catchAllCalls asciiLowerCase
       (CString html) extensions (mkOptions None)
     = Returned
         (filter (λ extension, extName extension ≠ "collaboration") extensions
          ++ generatePlaceholderNodeExtensions
               ((λ element, {| elType := node;
                               elTagName := asciiLowerCase (tagName element);
                               elAttributes := getAttributeNames element |})
                  <$> unknown)
               (mkOptions None)))
  ∧ (createPlaceholderExtensions deriveSchema catchAllCalls asciiLowerCase
       (CJSON json) extensions (mkOptions None)
     = Returned result
     ∧ ∃ generated, result = extensions ++ generated).
Proof.
  cbn zeta.
  pose proof (collaboration_removed_for_html_only
                (λ _, Returned (mkSchema ["doc"; "text"] []))
                (λ _ _, Returned [inr (mkElement "CUSTOM-WIDGET" ["data-id"])])
                asciiLowerCase
                [ mkExtension PlainClass "collaboration" None None None None [] None;
                  mkExtension PlainClass "history" None None None None [] None ]
                (mkOptions None)) as [Hhtml Hjson].
  split.
  - assert ("<custom-widget data-id=5></custom-widget>" ≠ "") as Hne by discriminate.
    assert ([mkElement "CUSTOM-WIDGET" ["data-id"]] ≠ []) as Hsome by discriminate.
    split; [exact Hne|]. split; [reflexivity|]. split; [exact Hsome|].
    exact (Hhtml _ _ Hne eq_refl Hsome).
  - split; [reflexivity|].
    exact (Hjson (One (mkJSON (Some "callout") None None None None)) _ eq_refl).
Defined.

End EntryPointFacts.

(** ** Properties of [createNodeFromContent.ts] *)

Module CreateNodeFacts.
Import CreateNode Comparison.

(** C8: the [remove] transformer returns its [json] argument unchanged,
    whatever the list of invalid blocks. *)
Theorem remove_returns_input (json : JSONContent)
    (invalidContent : list InvalidContentBlock) :
  remove json invalidContent = json
  ∧ transformers_remove transformers json invalidContent = json.
Proof.
  assert (remove json invalidContent = json) as H; [|by split].
  unfold remove. induction invalidContent as [|block blocks IH]; [done|].
  simpl. by destruct (invalidParentNode block).
Qed.

Section Pipeline.
Context {ProseMirrorNode Fragment ParseOptions DOMElement : Type}.
Variable emptyParseOptions : ParseOptions.
Variable nodeFromJSON : Schema → JSONInput → Outcome ProseMirrorNode.
Variable Fragment_fromArray : list ProseMirrorNode → Fragment.
Variable elementFromString : string → DOMElement.
Variable parseSlice_content : Schema → DOMElement → option ParseOptions → Fragment.
Variable parse : Schema → DOMElement → option ParseOptions → ProseMirrorNode.

Local Abbreviation create :=
  (createNodeFromContent emptyParseOptions nodeFromJSON Fragment_fromArray
     elementFromString parseSlice_content parse).
Local Abbreviation tryBuild :=
  (buildFromJSON nodeFromJSON Fragment_fromArray).

(** Text content is built at once, without console output. *)
Lemma create_text fuel html schema options :
  create (S fuel) (CString html) schema options
  = Some ([], Returned (buildFromText elementFromString
                          parseSlice_content parse schema html
                          (withDefaults emptyParseOptions options))).
Proof. reflexivity. Qed.

(** What a failed build from JSON does. *)
Lemma create_recovers fuel json schema options error :
  tryBuild schema json = Thrown error →
  create (S (S fuel)) (CJSON json) schema options
  = Some ([ ConsoleLogError error;
            ConsoleLogDetails (getInvalidContent schema error json);
            ConsoleWarnInvalidContent (CJSON json) error ],
          Returned (buildFromText elementFromString
                      parseSlice_content parse schema ""
                      (withDefaults emptyParseOptions
                         (Some (withDefaults emptyParseOptions options))))).
Proof.
  intros Hthrow. cbn [createNodeFromContent]. by rewrite Hthrow.
Qed.

(** The merge of the defaults into the options is idempotent, so the
    nested call works with the options of the outer call. *)
Lemma withDefaults_twice (options : option (CreateNodeFromContentOptions ParseOptions)) :
  withDefaults emptyParseOptions (Some (withDefaults emptyParseOptions options))
  = withDefaults emptyParseOptions options.
Proof. by destruct options as [[[|?] [|?]]|]. Qed.

(** With fuel for two nested calls, [createNodeFromContent] returns a value
    for every content, and never a thrown error.  When building from JSON
    throws, the call logs the error, then what [getInvalidContent] yields
    for that JSON, then the warning, and returns what the call with the
    empty string and the same schema returns. *)
Lemma createNodeFromContent_recovers (schema : Schema) :
  (∀ content options (fuel : nat), (2 ≤ fuel)%nat →
     ∃ console built,
       create fuel content schema options = Some (console, Returned built))
  ∧ (∀ json options (fuel : nat) error,
       tryBuild schema json = Thrown error →
       ∃ console result,
         create (S fuel) (CString "") schema
           (Some (withDefaults emptyParseOptions options))
         = Some (console, result)
         ∧ create (S (S fuel)) (CJSON json) schema options
           = Some (ConsoleLogError error
                   :: ConsoleLogDetails (getInvalidContent schema error json)
                   :: ConsoleWarnInvalidContent (CJSON json) error
                   :: console,
                   result)).
Proof.
  split.
  - intros content options [|[|fuel]] Hfuel; [lia | lia |].
    destruct content as [| | html | json].
    + cbn [createNodeFromContent]. eauto.
    + cbn [createNodeFromContent]. eauto.
    + rewrite create_text. eauto.
    + destruct (tryBuild schema json) as [built | error] eqn:Htry.
      * cbn [createNodeFromContent]. rewrite Htry. eauto.
      * rewrite (create_recovers _ _ _ _ _ Htry). eauto.
  - intros json options fuel error Htry. do 2 eexists. split.
    + apply create_text.
    + by rewrite (create_recovers _ _ _ _ _ Htry).
Qed.

(** C1: on the array of a node that is accepted and a node that is
    rejected, the call does not throw and returns what it returns for the
    empty string, but the report it computes and logs is not the
    invalid-content report of that array: it is the single entry of a node
    without a name at the empty path, where [getUnknownContent] reports the
    rejected node by its name at index 1. *)
Theorem rejected_array_element_is_not_reported
    (options : option (CreateNodeFromContentOptions ParseOptions)) (fuel : nat)
    (accepted : ProseMirrorNode) (error : Error) :
  nodeFromJSON paragraphSchema (One knownNode) = Returned accepted →
  nodeFromJSON paragraphSchema (One unknownNode) = Thrown error →
  ∃ details,
    create (S (S fuel)) (CJSON mixedArray) paragraphSchema options
    = Some ([ ConsoleLogError error;
              ConsoleLogDetails details;
              ConsoleWarnInvalidContent (CJSON mixedArray) error ],
            Returned (buildFromText elementFromString parseSlice_content parse
                        paragraphSchema ""
                        (withDefaults emptyParseOptions options)))
    ∧ details = getInvalidContent paragraphSchema error mixedArray
    ∧ invalidContent details
      = [ {| blockType := node; name := None; path := [];
             invalidParentNode := false; invalidParentMark := false |} ]
    ∧ UnknownContent.getUnknownContent mixedArray paragraphSchema
      = [ {| UnknownContent.blockType := node;
             UnknownContent.name := "callout";
             UnknownContent.attributes := [];
             UnknownContent.path := ["1"];
             UnknownContent.invalidParentNode := false;
             UnknownContent.invalidParentMark := false |} ].
Proof.
  intros Haccepted Hrejected.
  assert (tryBuild paragraphSchema mixedArray = Thrown error) as Htry.
  { unfold buildFromJSON, mixedArray. cbn [mapM].
    rewrite Haccepted. cbn [mbind Outcome_bind].
    rewrite Hrejected. reflexivity. }
  exists (getInvalidContent paragraphSchema error mixedArray).
  rewrite (create_recovers _ _ _ _ _ Htry), withDefaults_twice.
  repeat split.
Qed.
End Pipeline.


(** The inputs named by the specification, with a node constructor that
    rejects every type outside the schema and a parser that wraps the
    string: [null] and the empty string are parsed as empty text; an object
    without a [type] and an array with an unknown node are logged, reported
    and replaced by the result for the empty string. *)
Example createNodeFromContent_on_named_inputs :
  let nodeFromJSON : Schema → JSONInput → Outcome string :=
    λ schema json,
      match json with
      | One (mkJSON (Some t) _ _ _ _) =>
          if has (list_to_set (schema_nodes schema)) t then Returned t
          else Thrown (mkError "Unknown node type")
      | _ => Thrown (mkError "Unknown node type")
      end in
  let create :=
    createNodeFromContent tt nodeFromJSON (λ nodes : list string, nodes)
      (λ html : string, html) (λ _ html _, [html]) (λ _ html _, html) 2 in
  let schema := mkSchema ["doc"; "paragraph"; "text"] [] in
  let untyped := One (mkJSON None None None None None) in
  let mixed := Many [ mkJSON (Some "paragraph") None None None None;
                      mkJSON (Some "callout") None None None None ] in
  let rejected := mkError "Unknown node type" in
  let unknownNode name :=
    {| blockType := node; name := name; path := [];
       invalidParentNode := false; invalidParentMark := false |} in
  let recovered json report :=
    Some ([ ConsoleLogError rejected;
            ConsoleLogDetails (mkDetails json report transformers rejected);
            ConsoleWarnInvalidContent (CJSON json) rejected ],
          Returned (BuiltFragment [""])) in
  create CNull schema None = Some ([], Returned (BuiltFragment [""]))
  ∧ create (CString "") schema None = Some ([], Returned (BuiltFragment [""]))
  ∧ create (CString "") schema (Some (mkOptions (present (Some false)) absent))
    = Some ([], Returned (BuiltNode ""))
  ∧ create (CJSON untyped) schema None = recovered untyped [unknownNode None]
  ∧ create (CJSON mixed) schema None = recovered mixed [unknownNode None]
  ∧ create (CJSON (One (mkJSON (Some "paragraph") None None None None))) schema None
    = Some ([], Returned (BuiltNode "paragraph")).
Proof. vm_compute. repeat split. Qed.

(** An own key [slice: undefined] replaces the default: the text is parsed
    to a node, as for [slice: false], and to a fragment without the key. *)
Example slice_undefined_builds_a_node :
  let create :=
    createNodeFromContent tt (λ _ _, Thrown (mkError "unused"))
      (λ nodes : list string, nodes)
      (λ html : string, html) (λ _ html _, [html]) (λ _ html _, html) 1 in
  let schema := mkSchema ["doc"; "paragraph"; "text"] [] in
  create (CString "<p>x</p>") schema (Some (mkOptions (present None) absent))
  = Some ([], Returned (BuiltNode "<p>x</p>"))
  ∧ create (CString "<p>x</p>") schema (Some (mkOptions absent (present None)))
    = Some ([], Returned (BuiltFragment ["<p>x</p>"])).
Proof. split; reflexivity. Qed.

(** The array of a known and an unknown node, built with a node
    constructor that rejects every type outside the schema: the call
    recovers, and its report does not name the rejected node. *)
Lemma rejected_array_element_is_not_reported_witness :
  let nodeFromJSON : Schema → JSONInput → Outcome string :=
    λ schema json,
      match json with
      | One (mkJSON (Some t) _ _ _ _) =>
          if has (list_to_set (schema_nodes schema)) t then Returned t
          else Thrown (mkError "Unknown node type")
      | _ => Thrown (mkError "Unknown node type")
      end in
  let create :=
    createNodeFromContent tt nodeFromJSON (λ nodes : list string, nodes)
      (λ html : string, html) (λ _ html _, [html]) (λ _ html _, html) in
  let rejected := mkError "Unknown node type" in
  nodeFromJSON paragraphSchema (One knownNode) = Returned "paragraph"
  ∧ nodeFromJSON paragraphSchema (One unknownNode) = Thrown rejected
  ∧ ∃ details,
      create 2 (CJSON mixedArray) paragraphSchema None
      = Some ([ ConsoleLogError rejected;
                ConsoleLogDetails details;
                ConsoleWarnInvalidContent (CJSON mixedArray) rejected ],
              Returned (BuiltFragment [""]))
      ∧ invalidContent details
        = [ {| blockType := node; name := None; path := [];
               invalidParentNode := false; invalidParentMark := false |} ]
      ∧ ∃ b, b ∈ UnknownContent.getUnknownContent mixedArray paragraphSchema
             ∧ UnknownContent.name b = "callout"
             ∧ UnknownContent.path b = ["1"].
Proof.
  intros nodeFromJSON create rejected.
  assert (nodeFromJSON paragraphSchema (One knownNode) = Returned "paragraph")
    as Haccepted by (vm_compute; reflexivity).
  assert (nodeFromJSON paragraphSchema (One unknownNode) = Thrown rejected)
    as Hrejected by (vm_compute; reflexivity).
  split; [exact Haccepted|]. split; [exact Hrejected|].
  destruct (rejected_array_element_is_not_reported (Fragment := list string)
              (DOMElement := string) tt nodeFromJSON
              (λ nodes : list string, nodes)
              (λ html : string, html) (λ _ html _, [html]) (λ _ html _, html)
              None 0 "paragraph" rejected Haccepted Hrejected)
    as (details & Hcreate & _ & Hreport & Hsibling).
  exists details. split; [exact Hcreate|]. split; [exact Hreport|].
  eexists. split; [rewrite Hsibling; apply list_elem_of_here|]. split; reflexivity.
Defined.

End CreateNodeFacts.

(** ** What the report says about the tree *)

Module ReportFacts.
Import UnknownContent Report Addressing UnknownContentFacts.

Lemma atKey_lookup {A : Type} (xs : list A) i k x :
  xs !! k = Some x → atKey (pretty (i + k)) i xs = Some x.
Proof.
  revert i k. induction xs as [|y xs IH]; intros i k Hk; [done|].
  destruct k as [|k]; simpl in *.
  - rewrite Nat.add_0_r, decide_True by done. congruence.
  - rewrite decide_False.
    + replace (i + S k) with (S i + k) by lia. by apply IH.
    + intros Heq%(inj pretty). lia.
Qed.

Lemma atKey_Some {A : Type} (xs : list A) key i x :
  atKey key i xs = Some x → ∃ k, key = pretty (i + k) ∧ xs !! k = Some x.
Proof.
  revert i. induction xs as [|y xs IH]; intros i; simpl; [done|].
  case_decide as Hk.
  - intros [= ->]. exists 0. by rewrite Nat.add_0_r.
  - intros (k & -> & Hx)%IH. exists (S k). split; [f_equal; lia | done].
Qed.

Lemma invalidMarks_lookup validMarks ms k e :
  invalidMarks validMarks ms !! k = Some e →
  ms !! e.1 = Some e.2 ∧ markName e.2 ∉ validMarks.
Proof.
  intros He. apply list_elem_of_lookup_2, list_elem_of_filter in He as [Hbad Hin].
  split; [|done]. apply elem_of_lookup_imap in Hin as (i & m & -> & Hm). done.
Qed.

Section Entries.
Variables validMarks validNodes : gset string.

Local Abbreviation check := (checkForUnknownContent validMarks validNodes).

Lemma unknownType_Some json t :
  unknownType validNodes json = Some t →
  type json = Some t ∧ t ≠ "" ∧ t ∉ validNodes.
Proof.
  unfold unknownType. destruct (type json) as [t'|]; [|done].
  destruct (truthy_string t' && negb (has validNodes t')) eqn:H; [|done].
  intros [= ->]. apply andb_prop in H as [Ht Hn].
  split; [done|]. split.
  - intros ->. by vm_compute in Ht.
  - apply has_false. by destruct (has validNodes t).
Qed.

Lemma follow_content json k child s :
  default [] (content json) !! k = Some child →
  follow ("content" :: pretty k :: s) json = follow s child.
Proof.
  intros Hc. cbn [follow]. rewrite decide_False by done.
  rewrite decide_True by done.
  destruct (content json) as [cs|]; [|by destruct k].
  cbn [default] in Hc. simpl.
  by rewrite (atKey_lookup cs 0 k child Hc : atKey (pretty k) 0 cs = Some child).
Qed.

Lemma mark_described json path ipn ipm k e :
  invalidMarks validMarks (default [] (marks json)) !! k = Some e →
  describes validMarks validNodes json ["marks"; pretty e.1]
    (markBlock path ipn ipm k e).
Proof.
  intros [Hm Hbad]%invalidMarks_lookup. exists e.2.
  destruct (marks json) as [ms|] eqn:Hms; cbn [default] in Hm;
    [|by rewrite lookup_nil in Hm].
  cbn [follow]. rewrite decide_True by done.
  rewrite Hms. simpl.
  by rewrite (atKey_lookup ms 0 _ _ Hm : atKey (pretty e.1) 0 ms = Some e.2).
Qed.

Lemma type_described json path ipn ipm t :
  unknownType validNodes json = Some t →
  describes validMarks validNodes json [] (typeBlock json t path ipn ipm).
Proof. intros (Ht & Hne & Hn)%unknownType_Some. by exists json. Qed.

Lemma entry_described json :
  ∀ path ipn ipm b, b ∈ check json path ipn ipm →
    ∃ s, UnknownContent.path b = path ++ s ∧ describes validMarks validNodes json s b.
Proof.
  induction json as [t a m x | t a m cs x IH] using JSONContent_children_ind;
    intros path ipn ipm b Hb; apply elem_of_report in Hb;
    destruct Hb as [(k & c & Hc & Hb) | [(k & e & He & ->) | (t' & Ht & ->)]].
  - by destruct k.
  - exists ["marks"; pretty e.1]. split; [done | by apply mark_described].
  - exists []. split; [by rewrite app_nil_r | by apply type_described].
  - rewrite Forall_lookup in IH. cbn [content default] in Hc.
    destruct (IH _ _ Hc _ _ _ _ Hb) as (s & Hs & Hd).
    exists ("content" :: pretty k :: s). split; [by rewrite Hs, <- app_assoc|].
    unfold describes in *.
    by rewrite (follow_content (mkJSON t a m (Some cs) x) k c s Hc).
  - exists ["marks"; pretty e.1]. split; [done | by apply mark_described].
  - exists []. split; [by rewrite app_nil_r | by apply type_described].
Qed.
End Entries.


(** Every entry of the report points at an unknown name: its path, replayed
    on the argument, leads to a node or a mark that carries the entry's
    name and attribute names; the name is not a name of the schema, and it
    is not empty for a node. *)
Theorem entry_points_at_unknown_name (input : JSONInput) (schema : Schema)
    (b : unknownContentBlock) :
  b ∈ getUnknownContent input schema → pointsAtUnknown schema input b.
Proof.
  unfold getUnknownContent. intros Hb.
  assert (∃ json s, followInput (path b) input = follow s json
                    ∧ describes (list_to_set (schema_marks schema))
                        (list_to_set (schema_nodes schema)) json s b)
    as (json & s & Hf & Hd).
  { destruct input as [json | jsons].
    - destruct (entry_described _ _ _ _ _ _ _ Hb) as (s & Hs & Hd).
      exists json, s. by rewrite Hs.
    - apply list_elem_of_join in Hb as (r & Hb & Hr).
      apply elem_of_lookup_imap in Hr as (k & json & -> & Hk).
      destruct (entry_described _ _ _ _ _ _ _ Hb) as (s & Hs & Hd).
      exists json, s. split; [|done]. rewrite Hs. cbn [followInput app].
      by rewrite (atKey_lookup jsons 0 k json Hk
                  : atKey (pretty k) 0 jsons = Some json). }
  unfold pointsAtUnknown, describes in *. rewrite Hf.
  destruct (blockType b).
  - destruct Hd as (m & ? & ? & ? & Hn). exists m.
    by rewrite elem_of_list_to_set in Hn.
  - destruct Hd as (j & ? & ? & ? & ? & Hn). exists j.
    by rewrite elem_of_list_to_set in Hn.
Qed.

(** The unknown mark of a paragraph inside an array. *)
Lemma entry_points_at_unknown_name_witness :
  let paragraph := mkJSON (Some "paragraph") None
                     (Some [MarkName "bold"; MarkObj "glow" (Some ["color"])])
                     None None in
  let input := Many [mkJSON (Some "doc") None None (Some [paragraph]) None] in
  let schema := mkSchema ["doc"; "paragraph"] ["bold"] in
  let b := {| blockType := mark; name := "glow"; attributes := ["color"];
              path := ["0"; "content"; "0"; "marks"; "1"];
              invalidParentNode := false; invalidParentMark := false |} in
  b ∈ getUnknownContent input schema ∧ pointsAtUnknown schema input b.
Proof.
  cbn zeta.
  assert ({| blockType := mark; name := "glow"; attributes := ["color"];
             path := ["0"; "content"; "0"; "marks"; "1"];
             invalidParentNode := false; invalidParentMark := false |}
          ∈ getUnknownContent
              (Many [mkJSON (Some "doc") None None
                       (Some [mkJSON (Some "paragraph") None
                                (Some [MarkName "bold"; MarkObj "glow" (Some ["color"])])
                                None None]) None])
              (mkSchema ["doc"; "paragraph"] ["bold"])) as H.
  { vm_compute. apply list_elem_of_here. }
  split; [exact H|].
  exact (entry_points_at_unknown_name _ _ _ H).
Defined.

(** *** One entry per unknown name *)

Lemma length_join_imap {A B : Type} (f : nat → A → list B) (g : A → nat) xs :
  Forall (λ x, ∀ i, length (f i x) = g x) xs →
  length (mjoin (imap f xs)) = foldr (λ x n, g x + n) 0 xs.
Proof.
  intros H. revert f H. induction xs as [|x xs IH]; intros f H; [done|].
  apply Forall_cons in H as [Hx H]. rewrite imap_cons. simpl.
  rewrite length_app, Hx. f_equal. apply IH.
  eapply Forall_impl; [exact H|]. intros y Hy i. apply Hy.
Qed.

Lemma length_report validMarks validNodes json :
  ∀ path ipn ipm,
    length (checkForUnknownContent validMarks validNodes json path ipn ipm)
    = unknownCount validMarks validNodes json.
Proof.
  induction json as [t a m x | t a m cs x IH] using JSONContent_children_ind;
    intros path ipn ipm; rewrite checkForUnknownContent_unfold;
    rewrite !length_app, length_reverse, length_imap;
    cbn [unknownCount content default imap reverse mjoin length].
  - destruct (unknownType validNodes _); simpl; lia.
  - rewrite (Permutation_length (join_Permutation _ _ (reverse_Permutation _))).
    rewrite (length_join_imap _ (unknownCount validMarks validNodes)).
    + destruct (unknownType validNodes _); simpl; lia.
    + eapply Forall_impl; [exact IH|]. intros c Hc i. apply Hc.
Qed.

(** The report has one entry for every unknown mark of every node and one
    for every node of unknown type: no more, no less.  In particular it is
    empty only for a tree without unknown names. *)
Theorem one_entry_per_unknown_name (input : JSONInput) (schema : Schema) :
  length (getUnknownContent input schema)
  = foldr (λ json n,
             unknownCount (list_to_set (schema_marks schema))
               (list_to_set (schema_nodes schema)) json + n)
      0 (inputNodes input).
Proof.
  unfold getUnknownContent. destruct input as [json | jsons]; cbn [inputNodes].
  - simpl. rewrite length_report. lia.
  - apply length_join_imap, Forall_forall. intros json _ i. apply length_report.
Qed.

(** *** Paths are relative to the node *)

Lemma fmap_join {A B : Type} (f : A → B) (ls : list (list A)) :
  f <$> mjoin ls = mjoin (fmap f <$> ls).
Proof.
  induction ls as [|l ls IH]; [done|]. simpl. by rewrite fmap_app, IH.
Qed.

Lemma report_prefix validMarks validNodes json :
  ∀ q path ipn ipm,
    checkForUnknownContent validMarks validNodes json (q ++ path) ipn ipm
    = prefixPath q <$> checkForUnknownContent validMarks validNodes json path ipn ipm.
Proof.
  induction json as [t a m x | t a m cs x IH] using JSONContent_children_ind;
    intros q path ipn ipm; rewrite !checkForUnknownContent_unfold;
    rewrite !fmap_app, fmap_reverse, fmap_imap, fmap_join, fmap_reverse, fmap_imap;
    cbn [content default].
  - f_equal. f_equal.
    + f_equal. apply imap_ext. intros k e _. unfold markBlock, prefixPath. simpl.
      by rewrite <- app_assoc.
    + by destruct (unknownType validNodes _).
  - f_equal; [|f_equal].
    + do 2 f_equal. rewrite Forall_lookup in IH. apply imap_ext. intros k c Hc.
      simpl. rewrite <- app_assoc. apply (IH _ _ Hc).
    + f_equal. apply imap_ext. intros k e _. unfold markBlock, prefixPath. simpl.
      by rewrite <- app_assoc.
    + by destruct (unknownType validNodes _).
Qed.

(** The report of an array is the concatenation, in array order, of the
    reports of its elements, each with the element's index put in front of
    its paths. *)
Theorem array_report_is_indexed_reports (jsons : list JSONContent) (schema : Schema) :
  getUnknownContent (Many jsons) schema
  = mjoin (imap (λ idx json,
                   prefixPath [pretty idx] <$> getUnknownContent (One json) schema)
             jsons).
Proof.
  unfold getUnknownContent. f_equal. apply imap_ext. intros k json _.
  by rewrite <- (report_prefix _ _ json [pretty k] []), app_nil_r.
Qed.


(** *** No two entries share a path *)

Lemma NoDup_invalidMarks_indices validMarks ms :
  NoDup (invalidMarks validMarks ms).*1.
Proof.
  unfold invalidMarks.
  eapply sublist_NoDup; [|apply fmap_sublist, sublist_filter].
  rewrite fmap_imap.
  rewrite (imap_ext _ (λ j _, id j)) by done.
  rewrite imap_seq_0, list_fmap_id. apply NoDup_seq.
Qed.

Lemma NoDup_join_reports (pre : nat → list string)
    (f : nat → JSONContent → list unknownContentBlock) cs :
  (∀ k1 k2 s1 s2, pre k1 ++ s1 = pre k2 ++ s2 → k1 = k2) →
  (∀ k c, cs !! k = Some c →
     NoDup (path <$> f k c) ∧ ∀ b, b ∈ f k c → ∃ s, path b = pre k ++ s) →
  NoDup (path <$> mjoin (imap f cs)).
Proof.
  revert pre f. induction cs as [|c cs IH]; intros pre f Hpre Hf.
  - apply NoDup_nil_2.
  - rewrite imap_cons. simpl. rewrite fmap_app. apply NoDup_app.
    destruct (Hf 0 c eq_refl) as [Hnd Hp]. split; [done|]. split.
    + intros x (b & -> & Hb)%list_elem_of_fmap (b' & Hx & Hb')%list_elem_of_fmap.
      apply list_elem_of_join in Hb' as (r & Hb' & Hr).
      apply elem_of_lookup_imap in Hr as (k & c' & -> & Hk).
      destruct (Hp _ Hb) as [s Hs].
      destruct (Hf (S k) c' Hk) as [_ Hp'].
      destruct (Hp' _ Hb') as [s' Hs'].
      rewrite Hs, Hs' in Hx. by apply Hpre in Hx.
    + apply (IH (pre ∘ S) (f ∘ S)).
      * intros k1 k2 s1 s2 Heq. apply Hpre in Heq. lia.
      * intros k c' Hk. apply (Hf (S k) c' Hk).
Qed.

Section OwnEntries.
Variables (validMarks validNodes : gset string) (json : JSONContent).
Variables (path : list string) (ipn ipm ipm' : bool).

Local Abbreviation ownEntries :=
  (reverse (imap (markBlock path ipn ipm)
              (invalidMarks validMarks (default [] (marks json))))
   ++ match unknownType validNodes json with
      | Some t => [typeBlock json t path ipn ipm']
      | None => []
      end).

Lemma own_path_shape b :
  b ∈ ownEntries →
  UnknownContent.path b = path ∨ ∃ i, UnknownContent.path b = path ++ ["marks"; i].
Proof.
  rewrite elem_of_app, elem_of_reverse.
  intros [(k & e & -> & _)%elem_of_lookup_imap | Hb]; [right; by eexists|].
  destruct (unknownType validNodes json); [|by apply elem_of_nil in Hb].
  apply list_elem_of_singleton in Hb as ->. by left.
Qed.

Lemma NoDup_own_paths : NoDup (UnknownContent.path <$> ownEntries).
Proof.
  rewrite fmap_app. apply NoDup_app. split; [|split].
  - rewrite fmap_reverse, reverse_Permutation.
    replace (UnknownContent.path <$> imap (markBlock path ipn ipm)
               (invalidMarks validMarks (default [] (marks json))))
      with ((λ i, path ++ ["marks"; pretty i])
              <$> (invalidMarks validMarks (default [] (marks json))).*1).
    + apply NoDup_fmap_2, NoDup_invalidMarks_indices.
      intros i j Hij. apply app_inv_head in Hij. injection Hij as Hij.
      by apply (inj pretty) in Hij.
    + rewrite fmap_imap, <- list_fmap_compose, <- imap_const. by apply imap_ext.
  - intros p (b & -> & Hb)%list_elem_of_fmap Hp'.
    rewrite elem_of_reverse in Hb.
    apply elem_of_lookup_imap in Hb as (k & e & -> & _).
    destruct (unknownType validNodes json); [|by apply elem_of_nil in Hp'].
    apply list_elem_of_singleton in Hp'. simpl in Hp'.
    apply (f_equal length) in Hp'. rewrite length_app in Hp'. simpl in Hp'. lia.
  - destruct (unknownType validNodes json); [apply NoDup_singleton | apply NoDup_nil_2].
Qed.
End OwnEntries.

Lemma NoDup_report_paths validMarks validNodes json :
  ∀ path ipn ipm,
    NoDup (UnknownContent.path
             <$> checkForUnknownContent validMarks validNodes json path ipn ipm).
Proof.
  induction json as [t a m x | t a m cs x IH] using JSONContent_children_ind;
    intros path ipn ipm; rewrite checkForUnknownContent_unfold;
    cbn [content default imap reverse mjoin app].
  - apply NoDup_own_paths.
  - rewrite fmap_app. apply NoDup_app. split; [|split; [|apply NoDup_own_paths]].
    + rewrite (fmap_Permutation _ _ _ (join_Permutation _ _ (reverse_Permutation _))).
      apply (NoDup_join_reports (λ k, path ++ ["content"; pretty k])).
      * intros k1 k2 s1 s2 Heq. rewrite <- !app_assoc in Heq.
        apply app_inv_head in Heq. injection Heq as Heq _.
        by apply (inj pretty) in Heq.
      * rewrite Forall_lookup in IH. intros k c Hc. split; [apply (IH _ _ Hc)|].
        intros b Hb. apply (report_path_extends _ _ _ _ _ _ _ Hb).
    + intros p (b & -> & Hb)%list_elem_of_fmap (b' & Hp' & Hb')%list_elem_of_fmap.
      apply list_elem_of_join in Hb as (r & Hb & Hr).
      rewrite elem_of_reverse in Hr.
      apply elem_of_lookup_imap in Hr as (k & c & -> & Hc).
      destruct (report_path_extends _ _ _ _ _ _ _ Hb) as [s Hs].
      rewrite Hs, <- app_assoc in Hp'.
      apply own_path_shape in Hb' as [Hb' | [i Hb']]; rewrite Hb' in Hp'.
      * apply (f_equal length) in Hp'. rewrite length_app in Hp'. simpl in Hp'. lia.
      * apply app_inv_head in Hp'. discriminate Hp'.
Qed.

(** The paths of a report are pairwise different: a path identifies its
    entry. *)
Theorem report_paths_are_distinct (input : JSONInput) (schema : Schema) :
  NoDup (path <$> getUnknownContent input schema).
Proof.
  unfold getUnknownContent. destruct input as [json | jsons].
  - apply NoDup_report_paths.
  - apply (NoDup_join_reports (λ k, [pretty k])).
    + intros k1 k2 s1 s2 Heq. injection Heq as Heq _. by apply (inj pretty) in Heq.
    + intros k c _. split; [apply NoDup_report_paths|].
      intros b Hb. apply (report_path_extends _ _ _ _ _ _ _ Hb).
Qed.


(** *** The [invalidParentMark] flag *)

Lemma filter_imap_bound {A : Type} (P : nat * A → Prop) `{∀ e, Decision (P e)}
    (i : nat) (xs : list A) (e : nat * A) :
  e ∈ filter P (imap (λ k, pair (i + k)) xs) → (i ≤ e.1)%nat.
Proof.
  intros [_ (k & x & -> & _)%elem_of_lookup_imap]%list_elem_of_filter. simpl. lia.
Qed.

Lemma filter_imap_order {A : Type} (P : nat * A → Prop) `{∀ e, Decision (P e)}
    (xs : list A) :
  ∀ (i a c : nat) (e e' : nat * A),
    filter P (imap (λ k, pair (i + k)) xs) !! a = Some e →
    filter P (imap (λ k, pair (i + k)) xs) !! c = Some e' →
    (a < c)%nat → (e.1 < e'.1)%nat.
Proof.
  induction xs as [|x xs IH]; intros i a c e e'; [done|].
  rewrite imap_cons, Nat.add_0_r.
  rewrite (imap_ext _ (λ k, pair (S i + k)))
    by (intros k y _; simpl; f_equal; lia).
  rewrite filter_cons. destruct (decide (P (i, x))); [|apply IH].
  destruct a as [|a], c as [|c]; simpl; try lia.
  - intros [= <-] He' _. apply list_elem_of_lookup_2 in He'.
    apply (filter_imap_bound P (S i) xs) in He'. simpl. lia.
  - intros He He' Hac. apply (IH (S i) a c); [done..|lia].
Qed.

Lemma invalidMarks_order validMarks ms (a c : nat) e e' :
  invalidMarks validMarks ms !! a = Some e →
  invalidMarks validMarks ms !! c = Some e' →
  (a < c)%nat → (e.1 < e'.1)%nat.
Proof. apply (filter_imap_order _ ms 0). Qed.

Lemma markedBy_mark q (j : nat) p :
  markedBy p (q ++ ["marks"; pretty j])
  ↔ p = q ∨ insideContentOf p q
    ∨ ∃ k' : nat, (j < k')%nat ∧ p = q ++ ["marks"; pretty k'].
Proof.
  split.
  - intros (q' & k & Hm & Hp). apply app_inj_2 in Hm as [-> Hk]; [|done].
    injection Hk as Hk%(inj pretty). by subst.
  - intros Hp. by exists q, j.
Qed.

Lemma markedBy_inside q (j : nat) p path key s :
  markedBy p (q ++ ["marks"; pretty j]) →
  q = path ++ "content" :: key :: s →
  ∃ s', p = path ++ "content" :: key :: s'.
Proof.
  intros [-> | [(i & rest & ->) | (k' & _ & ->)]]%markedBy_mark ->;
    eexists; rewrite <- ?app_assoc; simpl; reflexivity.
Qed.

Section MarkFlags.
Variables validMarks validNodes : gset string.

Local Abbreviation check := (checkForUnknownContent validMarks validNodes).

(** The path of a mark entry ends with the mark's place on its node. *)
Lemma mark_path_shape json :
  ∀ path ipn ipm b, b ∈ check json path ipn ipm → blockType b = mark →
    ∃ s (k : nat), UnknownContent.path b = path ++ s ++ ["marks"; pretty k].
Proof.
  induction json as [t a m x | t a m cs x IH] using JSONContent_children_ind;
    intros path ipn ipm b Hb Hm; apply elem_of_report in Hb;
    cbn [content default] in Hb;
    destruct Hb as [(k & c & Hc & Hb) | [(k & e & _ & ->) | (t' & _ & ->)]];
    try done; try (by exists [], e.1); try (by destruct k).
  rewrite Forall_lookup in IH.
  destruct (IH _ _ Hc _ _ _ _ Hb Hm) as (s & j & Hs).
  exists ("content" :: pretty k :: s), j. by rewrite Hs, <- !app_assoc.
Qed.

(** A mark entry of a child: its path names a node inside that child. *)
Lemma child_mark_path c path (k : nat) ipn ipm b' :
  b' ∈ check c (path ++ ["content"; pretty k]) ipn ipm →
  blockType b' = mark →
  ∃ s (j : nat), UnknownContent.path b'
                 = (path ++ "content" :: pretty k :: s) ++ ["marks"; pretty j].
Proof.
  intros Hb' Hm. destruct (mark_path_shape _ _ _ _ _ Hb' Hm) as (s & j & Hs).
  exists s, j. by rewrite Hs, <- !app_assoc.
Qed.

Section Node.
Variables (json : JSONContent) (path : list string) (ipn ipm : bool).

Local Abbreviation invalid := (invalidMarks validMarks (default [] (marks json))).
Local Abbreviation wrapped p :=
  (∃ b', b' ∈ check json path ipn ipm ∧ blockType b' = mark
         ∧ markedBy p (UnknownContent.path b')).

(** The first unknown mark of the node wraps the node and its content. *)
Lemma first_mark_wraps p :
  invalid ≠ [] → p = path ∨ insideContentOf p path → wrapped p.
Proof.
  intros Hne Hp. destruct invalid as [|e0 rest] eqn:Hinv; [done|].
  exists (markBlock path ipn ipm 0 e0). split; [|split; [done|]].
  - apply elem_of_report. right. left. exists 0, e0. by rewrite Hinv.
  - apply markedBy_mark. destruct Hp; auto.
Qed.

(** A wrapping mark of one of the node's own entries is one of the node's
    own marks. *)
Lemma own_entry_wrapped s :
  length s = 0 ∨ (∃ i, s = ["marks"; i]) →
  wrapped (path ++ s) →
  ∃ k1 e1, invalid !! k1 = Some e1
           ∧ markedBy (path ++ s) (path ++ ["marks"; pretty e1.1]).
Proof.
  intros Hs (b' & Hb' & Hm & Hw). apply elem_of_report in Hb'.
  destruct Hb' as [(k1 & c1 & Hc1 & Hb') | [(k1 & e1 & He1 & ->) | (? & _ & ->)]];
    [exfalso | by exists k1, e1 | done].
  destruct (child_mark_path _ _ _ _ _ _ Hb' Hm) as (s1 & j & Hq).
  rewrite Hq in Hw.
  destruct (markedBy_inside _ _ _ _ _ _ Hw eq_refl) as [s' Hp].
  apply app_inv_head in Hp. destruct Hs as [Hs | [i ->]]; [|done].
  apply (f_equal length) in Hp. simpl in Hp. lia.
Qed.

Lemma own_mark_flag (k : nat) e :
  invalid !! k = Some e →
  invalidParentMark (markBlock path ipn ipm k e) = true
  ↔ ipm = true ∨ wrapped (path ++ ["marks"; pretty e.1]).
Proof.
  intros He. cbn [invalidParentMark markBlock]. split.
  - destruct k as [|k]; [by left|]. intros _. right.
    destruct (invalid !! k) as [e'|] eqn:He'.
    2:{ apply lookup_ge_None in He'. apply lookup_lt_Some in He. lia. }
    exists (markBlock path ipn ipm k e'). split; [|split; [done|]].
    + apply elem_of_report. right. left. by exists k, e'.
    + apply markedBy_mark. right. right. exists e.1. split; [|done].
      apply (invalidMarks_order _ _ k (S k) e' e He' He). lia.
  - intros [-> | Hw]; [by destruct k|].
    apply own_entry_wrapped in Hw as (k1 & e1 & He1 & Hw); [|by right; eexists].
    apply markedBy_mark in Hw as [Hp | [(i & rest & Hp) | (k' & Hlt & Hp)]].
    + apply (f_equal length) in Hp. rewrite length_app in Hp. simpl in Hp. lia.
    + apply app_inv_head in Hp. discriminate Hp.
    + apply app_inv_head in Hp. injection Hp as Hp%(inj pretty). subst k'.
      destruct k as [|k]; [|done]. exfalso.
      destruct k1 as [|k1]; [rewrite He in He1; injection He1 as <-; lia|].
      pose proof (invalidMarks_order _ _ 0 (S k1) e e1 He He1). lia.
Qed.

Lemma own_type_flag :
  match invalid with [] => ipm | _ => true end = true
  ↔ ipm = true ∨ wrapped path.
Proof.
  split.
  - destruct invalid as [|e0 rest] eqn:Hinv; [by left|]. intros _. right.
    apply first_mark_wraps; [by rewrite Hinv | by left].
  - intros [-> | Hw]; [by destruct invalid|].
    destruct (own_entry_wrapped [] (or_introl eq_refl)) as (k1 & e1 & He1 & _).
    { by rewrite app_nil_r. }
    by destruct invalid.
Qed.
End Node.

(** The flag of an entry: inherited from the call, or set by an unknown
    mark of the same report that wraps the entry. *)
Lemma mark_flag json :
  ∀ path ipn ipm b, b ∈ check json path ipn ipm →
    (invalidParentMark b = true
     ↔ ipm = true
       ∨ ∃ b', b' ∈ check json path ipn ipm ∧ blockType b' = mark
               ∧ markedBy (UnknownContent.path b) (UnknownContent.path b')).
Proof.
  induction json as [t a m x | t a m cs x IH] using JSONContent_children_ind;
    intros path ipn ipm b Hb; pose proof Hb as Hb0; apply elem_of_report in Hb;
    destruct Hb as [(k & c & Hc & Hb) | [(k & e & He & ->) | (t' & Ht & ->)]].
  - by destruct k.
  - by apply own_mark_flag.
  - apply own_type_flag.
  - rewrite Forall_lookup in IH. cbn [content default] in Hc.
    rewrite (IH _ _ Hc _ _ _ _ Hb).
    destruct (report_path_extends _ _ _ _ _ _ _ Hb) as [s Hs].
    assert (Hin : insideContentOf (UnknownContent.path b) path).
    { exists (pretty k), s. by rewrite Hs, <- app_assoc. }
    split.
    + intros [Hipm | (b' & Hb' & Hm & Hw)].
      * cbn [marks] in Hipm.
        destruct (invalidMarks validMarks (default [] m)) eqn:Hinv; [by left|].
        right. apply first_mark_wraps; [cbn [marks]; by rewrite Hinv | by right].
      * right. exists b'. split; [|done]. apply elem_of_report. left. eauto.
    + intros [-> | (b' & Hb' & Hm & Hw)].
      * left. by destruct (invalidMarks validMarks _).
      * apply elem_of_report in Hb'. cbn [content default] in Hb'.
        destruct Hb' as [(k1 & c1 & Hc1 & Hb') | [(k1 & e1 & He1 & ->) | (? & _ & ->)]].
        -- right. destruct (child_mark_path _ _ _ _ _ _ Hb' Hm) as (s1 & j & Hq).
           pose proof Hw as Hw'. rewrite Hq in Hw'.
           destruct (markedBy_inside _ _ _ _ _ _ Hw' eq_refl) as [s' Hp].
           assert (k1 = k) as ->.
           { rewrite Hs, <- app_assoc in Hp. apply app_inv_head in Hp.
             simpl in Hp. injection Hp as Hp _. by apply (inj pretty) in Hp. }
           simplify_eq. by exists b'.
        -- left. by destruct (invalidMarks validMarks _).
        -- done.
  - by apply own_mark_flag.
  - apply own_type_flag.
Qed.
End MarkFlags.

Lemma markedBy_extends q (j : nat) p :
  markedBy p (q ++ ["marks"; pretty j]) → ∃ s, p = q ++ s.
Proof.
  intros [-> | [(i & rest & ->) | (k' & _ & ->)]]%markedBy_mark; eauto.
  exists []. by rewrite app_nil_r.
Qed.

(** In the report of [getUnknownContent], an entry has
    [invalidParentMark = true] exactly when the report also lists an unknown
    mark that wraps it: a mark of the node the entry is about, a mark of a
    node whose content holds the entry, or, for a mark entry, a mark of the
    same node that is declared before it. *)
Theorem mark_flag_iff_wrapped (input : JSONInput) (schema : Schema)
    (b : unknownContentBlock) :
  b ∈ getUnknownContent input schema →
  (invalidParentMark b = true
   ↔ ∃ b', b' ∈ getUnknownContent input schema ∧ blockType b' = mark
           ∧ markedBy (path b) (path b')).
Proof.
  unfold getUnknownContent. destruct input as [json | jsons]; intros Hb.
  - rewrite (mark_flag _ _ _ _ _ _ _ Hb). split; [|by right]. by intros [? | ?].
  - apply list_elem_of_join in Hb as (r & Hb & Hr).
    apply elem_of_lookup_imap in Hr as (k & json & -> & Hk).
    rewrite (mark_flag _ _ _ _ _ _ _ Hb). split.
    + intros [? | (b' & Hb' & Hm & Hw)]; [done|].
      exists b'. split; [|done]. apply list_elem_of_join. eexists. split; [done|].
      by apply (elem_of_lookup_imap_2
                  (λ idx json, checkForUnknownContent _ _ json [pretty idx] false false)).
    + intros (b' & Hb' & Hm & Hw). right.
      apply list_elem_of_join in Hb' as (r' & Hb' & Hr').
      apply elem_of_lookup_imap in Hr' as (k' & json' & -> & Hk').
      destruct (report_path_extends _ _ _ _ _ _ _ Hb) as [s Hs].
      destruct (mark_path_shape _ _ _ _ _ _ _ Hb' Hm) as (s1 & j & Hs').
      assert (k' = k) as ->.
      { pose proof Hw as Hw'. rewrite Hs', app_assoc in Hw'.
        apply markedBy_extends in Hw' as [s' Hp]. rewrite Hs in Hp.
        simpl in Hp. injection Hp as Hp _. by apply (inj pretty) in Hp. }
      simplify_eq. by exists b'.
Qed.

(** A paragraph with two unknown marks and an unknown child: the second
    mark is wrapped by the first one. *)
Lemma mark_flag_iff_wrapped_witness :
  let input := One (mkJSON (Some "paragraph") None
                      (Some [MarkName "glow"; MarkName "blink"])
                      (Some [mkJSON (Some "badge") None None None None]) None) in
  let schema := mkSchema ["doc"; "paragraph"] [] in
  let b := {| blockType := mark; name := "blink"; attributes := [];
              path := ["marks"; "1"];
              invalidParentNode := false; invalidParentMark := true |} in
  b ∈ getUnknownContent input schema
  ∧ (invalidParentMark b = true
     ↔ ∃ b', b' ∈ getUnknownContent input schema ∧ blockType b' = mark
             ∧ markedBy (path b) (path b')).
Proof.
  cbn zeta.
  assert ({| blockType := mark; name := "blink"; attributes := [];
             path := ["marks"; "1"];
             invalidParentNode := false; invalidParentMark := true |}
          ∈ getUnknownContent
              (One (mkJSON (Some "paragraph") None
                      (Some [MarkName "glow"; MarkName "blink"])
                      (Some [mkJSON (Some "badge") None None None None]) None))
              (mkSchema ["doc"; "paragraph"] [])) as H.
  { vm_compute. apply list_elem_of_further, list_elem_of_here. }
  split; [exact H|].
  exact (mark_flag_iff_wrapped _ _ _ H).
Defined.

End ReportFacts.

(** ** The two validators *)

Module ComparisonFacts.
Import Comparison.

(** Two loops over the same array that keep a relation between their
    states. *)
Lemma forEachEntry_related {A S1 S2 : Type} (R : S1 → S2 → Prop)
    (body1 : S1 → nat → A → S1) (body2 : S2 → nat → A → S2) (xs : list A) :
  (∀ s1 s2 i x, x ∈ xs → R s1 s2 → R (body1 s1 i x) (body2 s2 i x)) →
  ∀ i s1 s2, R s1 s2 → R (forEachEntry body1 i xs s1) (forEachEntry body2 i xs s2).
Proof.
  induction xs as [|x xs IH]; intros Hstep i s1 s2 HR; [done|].
  simpl. apply IH.
  - intros s1' s2' j y Hy. apply Hstep. by right.
  - apply Hstep; [by left | done].
Qed.

Section Agreement.
Variables validMarks validNodes : gset string.

Lemma checkMarks_agree path ipn ipm ms :
  CreateNode.checkMarks validMarks path ipn ipm ms
  = (forget <$> (UnknownContent.checkMarks validMarks path ipn ipm ms).1,
     (UnknownContent.checkMarks validMarks path ipn ipm ms).2).
Proof.
  destruct ms as [ms|]; [|done].
  unfold CreateNode.checkMarks, UnknownContent.checkMarks.
  assert (H : forEachEntry (CreateNode.markStep validMarks path ipn) 0 ms ([], ipm)
              = (forget <$> (forEachEntry (UnknownContent.markStep validMarks path ipn)
                               0 ms ([], ipm)).1,
                 (forEachEntry (UnknownContent.markStep validMarks path ipn)
                    0 ms ([], ipm)).2)).
  { apply (forEachEntry_related (λ st1 st2, st2 = (forget <$> st1.1, st1.2))
             (UnknownContent.markStep validMarks path ipn)
             (CreateNode.markStep validMarks path ipn) ms); [|done].
    intros [acc1 f1] st2 i m _ ->.
    unfold UnknownContent.markStep, CreateNode.markStep. simpl.
    by destruct (has validMarks _). }
  rewrite H.
  by destruct (forEachEntry (UnknownContent.markStep validMarks path ipn) 0 ms ([], ipm)).
Qed.

Lemma checkType_agree json path ipn ipm acc :
  from_option truthy_string false (type json) = true →
  CreateNode.checkType validNodes json path ipn ipm (forget <$> acc)
  = (forget <$> (UnknownContent.checkType validNodes json path ipn ipm acc).1,
     (UnknownContent.checkType validNodes json path ipn ipm acc).2).
Proof.
  unfold CreateNode.checkType, UnknownContent.checkType, CreateNode.hasType.
  destruct (type json) as [t|]; [|done]. simpl. intros ->. simpl.
  destruct (has validNodes t); [done|]. simpl. by rewrite fmap_app.
Qed.

Lemma check_agree json :
  allTyped json = true →
  ∀ path ipn ipm,
    CreateNode.checkForInvalidContent validMarks validNodes json path ipn ipm
    = forget <$> UnknownContent.checkForUnknownContent validMarks validNodes
                   json path ipn ipm.
Proof.
  induction json as [t a m x | t a m cs x IH] using JSONContent_children_ind;
    intros Ht path ipn ipm; cbn [allTyped] in Ht;
    apply andb_prop in Ht as [Ht Hcs];
    unfold CreateNode.checkForInvalidContent, UnknownContent.checkForUnknownContent;
    fold (CreateNode.checkForInvalidContent validMarks validNodes);
    fold (UnknownContent.checkForUnknownContent validMarks validNodes);
    rewrite checkMarks_agree;
    destruct (UnknownContent.checkMarks _ _ _ _ _) as [ownMarks ipm']; cbn [fst snd];
    rewrite checkType_agree by exact Ht;
    destruct (UnknownContent.checkType _ _ _ _ _ _) as [own ipn']; cbn [fst snd];
    [done|].
  rewrite fmap_app. f_equal.
  apply (forEachEntry_related (λ acc1 acc2, acc1 = forget <$> acc2)); [|done].
  intros acc1 acc2 i c Hc ->. rewrite fmap_app. f_equal.
  rewrite Forall_forall in IH. apply IH; [done|].
  apply (proj1 (forallb_forall _ _)) with (x := c) in Hcs; [done|].
  by apply list_elem_of_In.
Qed.
End Agreement.

(** For a document whose nodes all carry a non-empty [type], the report
    that [getInvalidContent] computes is the report of [getUnknownContent]
    without the attribute names: same entries, same order, same paths and
    flags. *)
Theorem validators_agree_on_typed_documents (schema : Schema) (error : Error)
    (json : JSONContent) :
  allTyped json = true →
  CreateNode.invalidContent (CreateNode.getInvalidContent schema error (One json))
  = forget <$> UnknownContent.getUnknownContent (One json) schema.
Proof. intros Ht. by apply check_agree. Qed.

Lemma validators_agree_on_typed_documents_witness :
  let json := mkJSON (Some "doc") None None
                (Some [mkJSON (Some "callout") (Some ["tone"])
                         (Some [MarkName "glow"])
                         (Some [mkJSON (Some "badge") None None None None]) None])
                None in
  let schema := mkSchema ["doc"; "text"] ["bold"] in
  allTyped json = true
  ∧ CreateNode.invalidContent
      (CreateNode.getInvalidContent schema (mkError "Unknown node type") (One json))
    = forget <$> UnknownContent.getUnknownContent (One json) schema.
Proof.
  cbn zeta.
  assert (allTyped
            (mkJSON (Some "doc") None None
               (Some [mkJSON (Some "callout") (Some ["tone"])
                        (Some [MarkName "glow"])
                        (Some [mkJSON (Some "badge") None None None None]) None])
               None) = true) as H by reflexivity.
  split; [exact H|].
  exact (validators_agree_on_typed_documents _ _ _ H).
Defined.

End ComparisonFacts.

(** ** Building from JSON and the fallback *)

Module BuildFacts.
Import CreateNode CreateNodeFacts.

(** A map that may throw returns the results of all elements, or throws
    what the first failing element throws. *)
Lemma mapM_nil {A B : Type} (f : A → Outcome B) : mapM f [] = Returned [].
Proof. reflexivity. Qed.

Lemma mapM_cons {A B : Type} (f : A → Outcome B) x l :
  mapM f (x :: l)
  = match f x with
    | Returned y =>
        match mapM f l with
        | Returned k => Returned (y :: k)
        | Thrown e => Thrown e
        end
    | Thrown e => Thrown e
    end.
Proof. reflexivity. Qed.

Lemma mapM_Returned {A B : Type} (f : A → Outcome B) l ys :
  mapM f l = Returned ys ↔ Forall2 (λ x y, f x = Returned y) l ys.
Proof.
  revert ys. induction l as [|x l IH]; intros ys.
  - rewrite mapM_nil. split; [intros [= <-]; constructor | by intros ->%Forall2_nil_inv_l].
  - rewrite mapM_cons. destruct (f x) as [y|e] eqn:Hx.
    + destruct (mapM f l) as [k|e] eqn:Hl.
      * split.
        -- intros [= <-]. constructor; [done | by apply IH].
        -- inversion 1 as [|? y' ? k' Hy Hk]; subst.
           apply IH in Hk. congruence.
      * split; [done|]. inversion 1 as [|? y' ? k' Hy Hk]; subst.
        apply IH in Hk. congruence.
    + split; [done|]. inversion 1; subst. congruence.
Qed.

Lemma mapM_Thrown {A B : Type} (f : A → Outcome B) l e :
  mapM f l = Thrown e
  ↔ ∃ (i : nat) x, l !! i = Some x ∧ f x = Thrown e
                   ∧ ∀ (j : nat) y, (j < i)%nat → l !! j = Some y →
                       ∃ n, f y = Returned n.
Proof.
  induction l as [|x l IH].
  - rewrite mapM_nil. split; [done | by intros (i & ? & ? & _)].
  - rewrite mapM_cons. destruct (f x) as [y|e'] eqn:Hx.
    + assert (Hshift : (∃ (i : nat) x', (x :: l) !! i = Some x' ∧ f x' = Thrown e
                          ∧ ∀ (j : nat) y', (j < i)%nat → (x :: l) !! j = Some y' →
                              ∃ n, f y' = Returned n)
                       ↔ mapM f l = Thrown e).
      { rewrite IH. split.
        - intros ([|i] & x' & Hi & Hf & Hbefore); simpl in Hi; [congruence|].
          exists i, x'. split; [done|]. split; [done|].
          intros j y' Hj Hy'. apply (Hbefore (S j) y'); [lia | done].
        - intros (i & x' & Hi & Hf & Hbefore).
          exists (S i), x'. split; [done|]. split; [done|].
          intros [|j] y' Hj Hy'; simpl in Hy'; [simplify_eq; eauto|].
          apply (Hbefore j y'); [lia | done]. }
      rewrite Hshift. destruct (mapM f l); split; congruence.
    + split.
      * intros [= ->]. exists 0, x. split; [done|]. split; [done|]. intros; lia.
      * intros ([|i] & x' & Hi & Hf & Hbefore); simpl in Hi; [congruence|].
        destruct (Hbefore 0 x) as [n Hn]; [lia | done | congruence].
Qed.

Section Pipeline.
Context {ProseMirrorNode Fragment ParseOptions DOMElement : Type}.
Variable emptyParseOptions : ParseOptions.
Variable nodeFromJSON : Schema → JSONInput → Outcome ProseMirrorNode.
Variable Fragment_fromArray : list ProseMirrorNode → Fragment.
Variable elementFromString : string → DOMElement.
Variable parseSlice_content : Schema → DOMElement → option ParseOptions → Fragment.
Variable parse : Schema → DOMElement → option ParseOptions → ProseMirrorNode.

Local Abbreviation create :=
  (createNodeFromContent emptyParseOptions nodeFromJSON Fragment_fromArray
     elementFromString parseSlice_content parse).
Local Abbreviation tryBuild :=
  (buildFromJSON nodeFromJSON Fragment_fromArray).
Local Abbreviation fromText :=
  (buildFromText elementFromString parseSlice_content parse).

(** A non-empty array is built element by element: it yields the fragment
    of the nodes of all elements, in order, when every element is accepted,
    and otherwise throws the error of the first rejected element, whatever
    the later elements are. *)
Theorem array_build_stops_at_first_rejection (schema : Schema)
    (items : list JSONContent) :
  items ≠ [] →
  (∀ built,
     tryBuild schema (Many items) = Returned built
     ↔ ∃ nodes, Forall2 (λ item n, nodeFromJSON schema (One item) = Returned n)
                  items nodes
                ∧ built = BuiltFragment (Fragment_fromArray nodes))
  ∧ (∀ error,
       tryBuild schema (Many items) = Thrown error
       ↔ ∃ (i : nat) item,
           items !! i = Some item
           ∧ nodeFromJSON schema (One item) = Thrown error
           ∧ ∀ (j : nat) earlier, (j < i)%nat → items !! j = Some earlier →
               ∃ n, nodeFromJSON schema (One earlier) = Returned n).
Proof.
  intros Hne. destruct items as [|item items]; [done|].
  unfold buildFromJSON.
  pose proof (mapM_Returned (λ item, nodeFromJSON schema (One item)) (item :: items))
    as HR.
  pose proof (mapM_Thrown (λ item, nodeFromJSON schema (One item)) (item :: items))
    as HT.
  destruct (mapM (λ item, nodeFromJSON schema (One item)) (item :: items))
    as [nodes|e]; simpl; unfold mret, Outcome_ret; split.
  - intros built. split.
    + intros Hb. exists nodes. split; [by apply HR|]. by injection Hb.
    + intros (nodes' & Hall%HR & ->). injection Hall as ->. done.
  - intros error. rewrite <- HT. split; congruence.
  - intros built. split; [done|]. intros (nodes' & Hall%HR & _). congruence.
  - intros error. rewrite <- HT. split; congruence.
Qed.

(** The merge of the defaults into the options is idempotent, so the
    nested call works with the options of the outer call. *)
Lemma withDefaults_idempotent (options : option (CreateNodeFromContentOptions ParseOptions)) :
  withDefaults emptyParseOptions (Some (withDefaults emptyParseOptions options))
  = withDefaults emptyParseOptions options.
Proof. by destruct options as [[[|?] [|?]]|]. Qed.

(** For [null], [undefined] and a JSON value whose build throws, the call
    returns exactly what it returns for the empty string with the caller's
    own options (so a fragment unless the caller's [slice] is [false] or
    [undefined]); it writes to the console only in the JSON case. *)
Theorem fallback_is_result_for_empty_string (schema : Schema) (content : Content)
    (options : option (CreateNodeFromContentOptions ParseOptions)) (fuel : nat) :
  content = CNull ∨ content = CUndefined
  ∨ (∃ json error, content = CJSON json ∧ tryBuild schema json = Thrown error) →
  ∃ console,
    create (S (S fuel)) content schema options
    = Some (console, Returned (fromText schema "" (withDefaults emptyParseOptions options)))
    ∧ create (S fuel) (CString "") schema options
      = Some ([], Returned (fromText schema "" (withDefaults emptyParseOptions options)))
    ∧ (console = [] ↔ content = CNull ∨ content = CUndefined).
Proof.
  intros [-> | [-> | (json & error & -> & Hthrow)]].
  - exists []. cbn [createNodeFromContent]. rewrite withDefaults_idempotent.
    split; [done|]. split; [done|]. split; auto.
  - exists []. cbn [createNodeFromContent]. rewrite withDefaults_idempotent.
    split; [done|]. split; [done|]. split; auto.
  - eexists. rewrite (create_recovers _ _ _ _ _ _ _ _ _ _ _ Hthrow).
    rewrite withDefaults_idempotent.
    split; [done|]. split; [done|]. split; [done|]. by intros [? | ?].
Qed.

(** The function calls itself at most once: two levels of calls are enough
    for every content, and more fuel never changes the result.  Text and a
    JSON value that builds need no nested call at all. *)
Theorem at_most_one_nested_call (schema : Schema) (content : Content)
    (options : option (CreateNodeFromContentOptions ParseOptions)) (fuel : nat) :
  create (S (S fuel)) content schema options = create 2 content schema options
  ∧ is_Some (create 2 content schema options)
  ∧ (is_Some (create 1 content schema options)
     ↔ (∃ html, content = CString html)
       ∨ (∃ json built, content = CJSON json ∧ tryBuild schema json = Returned built)).
Proof.
  destruct content as [| | html | json]; cbn [createNodeFromContent].
  - split; [done|]. split; [done|]. split; [by intros [? [=]] |].
    by intros [(? & [=]) | (? & ? & [=] & _)].
  - split; [done|]. split; [done|]. split; [by intros [? [=]] |].
    by intros [(? & [=]) | (? & ? & [=] & _)].
  - split; [done|]. split; [done|]. split; [|done]. intros _. left. by eexists.
  - destruct (tryBuild schema json) as [built|error] eqn:Htry.
    + split; [done|]. split; [done|]. split; [|done]. intros _. right. by eexists _, _.
    + split; [done|]. split; [done|]. split; [by intros [? [=]] |].
      intros [(? & [=]) | (? & ? & [= <-] & ?)]. congruence.
Qed.
End Pipeline.


(** A two-element array whose second element is rejected. *)
Lemma array_build_stops_at_first_rejection_witness :
  let nodeFromJSON : Schema → JSONInput → Outcome string :=
    λ schema json,
      match json with
      | One (mkJSON (Some t) _ _ _ _) =>
          if has (list_to_set (schema_nodes schema)) t then Returned t
          else Thrown (mkError ("Unknown node type: " +:+ t))
      | _ => Thrown (mkError "Unknown node type: undefined")
      end in
  let schema := mkSchema ["doc"; "paragraph"; "text"] [] in
  let items := [ mkJSON (Some "paragraph") None None None None;
                 mkJSON (Some "callout") None None None None;
                 mkJSON (Some "badge") None None None None ] in
  items ≠ []
  ∧ buildFromJSON nodeFromJSON (λ nodes : list string, nodes) schema (Many items)
    = Thrown (mkError "Unknown node type: callout").
Proof.
  cbn zeta.
  assert ([ mkJSON (Some "paragraph") None None None None;
            mkJSON (Some "callout") None None None None;
            mkJSON (Some "badge") None None None None ] ≠ []) as Hne by discriminate.
  split; [exact Hne|].
  apply (proj2 (array_build_stops_at_first_rejection _ (λ nodes : list string, nodes)
                  _ _ Hne)).
  exists 1, (mkJSON (Some "callout") None None None None).
  split; [reflexivity|]. split; [vm_compute; reflexivity|].
  intros [|j] earlier Hj Hearlier; [|lia].
  injection Hearlier as <-. exists "paragraph". vm_compute. reflexivity.
Defined.

(** [undefined] content with [slice: false]: the fallback is the document
    parsed from the empty string. *)
Lemma fallback_is_result_for_empty_string_witness :
  let create :=
    createNodeFromContent tt (λ _ _, Thrown (mkError "rejected"))
      (λ nodes : list string, nodes)
      (λ html : string, html) (λ _ html _, [html]) (λ _ html _, html) in
  let schema := mkSchema ["doc"] [] in
  let options := Some (mkOptions (present (Some false)) absent) in
  (CUndefined = CNull ∨ CUndefined = CUndefined
   ∨ (∃ json error, CUndefined = CJSON json
        ∧ buildFromJSON (λ _ _, Thrown (mkError "rejected"))
            (λ nodes : list string, nodes) schema json = Thrown error))
  ∧ create 2 CUndefined schema options = Some ([], Returned (BuiltNode ""))
  ∧ create 1 (CString "") schema options = Some ([], Returned (BuiltNode "")).
Proof.
  cbn zeta.
  assert (CUndefined = CNull ∨ CUndefined = CUndefined
          ∨ (∃ json error, CUndefined = CJSON json
               ∧ buildFromJSON (λ _ _, Thrown (mkError "rejected"))
                   (λ nodes : list string, nodes) (mkSchema ["doc"] []) json
                 = Thrown error)) as H by (right; left; reflexivity).
  split; [exact H|].
  destruct (fallback_is_result_for_empty_string tt (λ _ _, Thrown (mkError "rejected"))
              (λ nodes : list string, nodes)
              (λ html : string, html) (λ _ html _, [html]) (λ _ html _, html)
              (mkSchema ["doc"] []) CUndefined
              (Some (mkOptions (present (Some false)) absent)) 0 H)
    as (console & Hcreate & Hempty & Hconsole).
  split; [|exact Hempty].
  rewrite Hcreate. f_equal. f_equal. apply Hconsole. by right.
Defined.

(** *** The report that is logged *)

(** For an array the logged report never names an element: it is the single
    entry of a node without a [type] at the empty path.  A JSON object
    without a [type] is always reported, as the last entry. *)
Theorem untyped_input_is_reported (schema : Schema) (error : Error) :
  (∀ items,
     invalidContent (getInvalidContent schema error (Many items))
     = [ {| blockType := node; name := None; path := [];
            invalidParentNode := false; invalidParentMark := false |} ])
  ∧ (∀ json,
       type json = None →
       ∃ flag,
         last (invalidContent (getInvalidContent schema error (One json)))
         = Some {| blockType := node; name := None; path := [];
                   invalidParentNode := false; invalidParentMark := flag |}).
Proof.
  split; [done|]. intros [t a m cs x] Ht. simpl in Ht. subst t.
  unfold getInvalidContent. cbn [invalidContent asJSONContent].
  unfold checkForInvalidContent;
    fold (checkForInvalidContent (list_to_set (schema_marks schema))
            (list_to_set (schema_nodes schema))).
  destruct (checkMarks _ _ _ _ _) as [ownMarks flag]. exists flag.
  unfold checkType. cbn [type hasType negb].
  destruct cs as [cs|]; rewrite ?app_assoc; apply last_snoc.
Qed.

Lemma untyped_input_is_reported_witness :
  let json := mkJSON None None (Some [MarkName "glow"])
                (Some [mkJSON (Some "badge") None None None None]) None in
  type json = None
  ∧ last (invalidContent
            (getInvalidContent (mkSchema ["doc"] []) (mkError "rejected") (One json)))
    = Some {| blockType := node; name := None; path := [];
              invalidParentNode := false; invalidParentMark := true |}.
Proof.
  cbn zeta.
  assert (type (mkJSON None None (Some [MarkName "glow"])
                  (Some [mkJSON (Some "badge") None None None None]) None) = None)
    as H by reflexivity.
  split; [exact H|].
  destruct (proj2 (untyped_input_is_reported (mkSchema ["doc"] []) (mkError "rejected"))
              _ H) as [flag Hlast].
  rewrite Hlast. vm_compute in Hlast. by injection Hlast as <-.
Defined.

End BuildFacts.

(** ** More on the synthesized extensions *)

Module SynthesisFacts.
Import UnknownContent Report Synthesis ObjectFacts PlaceholderFacts.

(** The synthesizer emits extensions exactly for the tag names other than
    ["__proto__"].  Each one is the placeholder made for the last element
    with its tag name, so the kind of that element decides between node and
    mark.  The set that its closure holds has the attribute names of all
    elements with the tag name, and the attribute names that it declares
    are those of them other than ["__proto__"]. *)
Theorem placeholder_of_last_element (elements : list PlaceholderElement)
    (options : PlaceholderExtensionOptions) :
  let out := generatePlaceholderNodeExtensions elements options in
  (∀ t, t ∈ extName <$> out ↔ t ∈ elTagName <$> elements ∧ t ≠ "__proto__")
  ∧ ∀ d, d ∈ out →
      ∃ el attributes,
        lastWithTag elements (extName d) = Some el
        ∧ d = createPlaceholder options (elType el) (extName d) attributes
        ∧ (∀ x, x ∈ attributes ↔ observedAttribute elements (extName d) x)
        ∧ ∀ x, x ∈ attributeNames d
               ↔ observedAttribute elements (extName d) x ∧ x ≠ "__proto__".
Proof.
  cbn zeta. split.
  - apply generated_names.
  - intros d Hd.
    destruct (generated_made _ _ _ Hd) as (el & attributes & Hlast & Hmade & _ & Hx).
    exists el, attributes. split; [done|]. split; [done|]. split; [done|].
    intros x.
    assert (attributeNames d
            = attributeNames
                (createPlaceholder options (elType el) (extName d) attributes))
      as -> by (f_equal; exact Hmade).
    by rewrite elem_of_attributeNames, Hx.
Qed.

(** A mark and a node of one tag name, with an attribute ["__proto__"]: the
    extension made is a node, and it declares the other two attributes. *)
Lemma placeholder_of_last_element_witness :
  let elements :=
    [ {| elType := mark; elTagName := "callout"; elAttributes := ["tone"; "__proto__"] |};
      {| elType := node; elTagName := "callout"; elAttributes := ["id"] |} ] in
  let d := createPlaceholder {| fallback := None |} node "callout"
             ["tone"; "__proto__"; "id"] in
  d ∈ generatePlaceholderNodeExtensions elements {| fallback := None |}
  ∧ attributeNames d = ["tone"; "id"]
  ∧ ∃ el attributes,
      lastWithTag elements (extName d) = Some el
      ∧ d = createPlaceholder {| fallback := None |} (elType el) (extName d) attributes
      ∧ (∀ x, x ∈ attributes ↔ observedAttribute elements (extName d) x)
      ∧ ∀ x, x ∈ attributeNames d
             ↔ observedAttribute elements (extName d) x ∧ x ≠ "__proto__".
Proof.
  cbn zeta.
  assert (createPlaceholder {| fallback := None |} node "callout"
            ["tone"; "__proto__"; "id"]
          ∈ generatePlaceholderNodeExtensions
              [ {| elType := mark; elTagName := "callout";
                   elAttributes := ["tone"; "__proto__"] |};
                {| elType := node; elTagName := "callout"; elAttributes := ["id"] |} ]
              {| fallback := None |}) as Hin.
  { vm_compute. apply list_elem_of_here. }
  split; [exact Hin|]. split; [reflexivity|].
  exact (proj2 (placeholder_of_last_element _ _) _ Hin).
Defined.

(** *** Order of the synthesized extensions *)

Lemma objectValues_named {V : Type} (o : JSObject V) :
  Forall (λ e, arrayIndex e.1 = None) (own o) → objectValues o = (own o).*2.
Proof.
  intros H. unfold objectValues.
  assert (indexedEntries (own o) = []) as ->.
  { unfold indexedEntries. induction H as [|e l He _ IH]; [done|].
    simpl. by rewrite He. }
  assert (namedEntries (own o) = own o) as ->.
  { unfold namedEntries. induction H as [|e l He _ IH]; [done|].
    by rewrite filter_cons, decide_True, IH. }
  reflexivity.
Qed.

(** The names of the synthesized extensions are the tag names other than
    ["__proto__"], each once.  When no tag name is an array index, the
    extensions come in the order in which their tag names are first seen. *)
Theorem generated_in_first_seen_order (elements : list PlaceholderElement)
    (options : PlaceholderExtensionOptions) :
  let out := generatePlaceholderNodeExtensions elements options in
  extName <$> out ≡ₚ keptTags elements
  ∧ (Forall (λ el, arrayIndex (elTagName el) = None) elements →
     extName <$> out = keptTags elements).
Proof.
  cbn zeta. unfold generatePlaceholderNodeExtensions. cbn zeta.
  destruct (merge_invariant_all options elements) as [Hkeys Hok].
  set (o := fold_left (mergeElement options) elements emptyObject) in *.
  split.
  - rewrite <- Hkeys, <- (names_of_entries options elements _ Hok).
    by rewrite (objectValues_perm o).
  - intros Hnamed. rewrite objectValues_named.
    + by rewrite (names_of_entries options elements _ Hok).
    + apply Forall_forall. intros e He.
      assert (e.1 ∈ keptTags elements) as Hin.
      { rewrite <- Hkeys. by apply list_elem_of_fmap_2. }
      apply elem_of_keptTags in Hin as [Hin _].
      apply list_elem_of_fmap in Hin as (el & -> & Hel).
      rewrite Forall_forall in Hnamed. by apply Hnamed.
Qed.

(** Tag names in their order of appearance, and the extensions made. *)
Lemma generated_in_first_seen_order_witness :
  let elements := [ {| elType := node; elTagName := "widget"; elAttributes := [] |};
                    {| elType := mark; elTagName := "glow"; elAttributes := ["hue"] |};
                    {| elType := node; elTagName := "widget"; elAttributes := ["id"] |} ] in
  Forall (λ el, arrayIndex (elTagName el) = None) elements
  ∧ extName <$> generatePlaceholderNodeExtensions elements {| fallback := None |}
    = ["widget"; "glow"].
Proof.
  cbn zeta.
  assert (Forall (λ el, arrayIndex (elTagName el) = None)
            [ {| elType := node; elTagName := "widget"; elAttributes := [] |};
              {| elType := mark; elTagName := "glow"; elAttributes := ["hue"] |};
              {| elType := node; elTagName := "widget"; elAttributes := ["id"] |} ]) as H.
  { repeat constructor. }
  split; [exact H|].
  exact (proj2 (generated_in_first_seen_order _ {| fallback := None |}) H).
Defined.

(** An array index among the tag names is moved to the front. *)
Example index_name_comes_first :
  extName <$> generatePlaceholderNodeExtensions
                [ {| elType := node; elTagName := "widget"; elAttributes := [] |};
                  {| elType := node; elTagName := "7"; elAttributes := [] |} ]
                {| fallback := None |}
  = ["7"; "widget"].
Proof. reflexivity. Qed.

End SynthesisFacts.

(** ** The entry points and the synthesized extensions *)

Module EntryFacts.
Import UnknownContent Report Addressing Synthesis.
Import UnknownContentFacts ObjectFacts PlaceholderFacts ReportFacts SynthesisFacts.
Import EntryPointFacts.

(** *** Names known after a schema has grown *)

Section Schemas.
Variables validMarks validNodes validMarks' validNodes' : gset string.
Hypothesis nodes_kept : validNodes ⊆ validNodes'.
Hypothesis marks_kept : validMarks ⊆ validMarks'.

Local Abbreviation check := (checkForUnknownContent validMarks validNodes).
Local Abbreviation check' := (checkForUnknownContent validMarks' validNodes').

Lemma type_known_after json path ipn ipm :
  (∀ b, b ∈ check json path ipn ipm → knownAs validMarks' validNodes' b) →
  unknownType validNodes' json = None.
Proof.
  intros Hrep. destruct (unknownType validNodes' json) as [t|] eqn:Ht; [|done].
  exfalso. apply unknownType_Some in Ht as (Hty & Hne & Hnot).
  assert (unknownType validNodes json = Some t) as Ht0.
  { unfold unknownType. rewrite Hty.
    assert (truthy_string t = true) as ->.
    { unfold truthy_string. apply negb_true_iff, String.eqb_neq, Hne. }
    assert (has validNodes t = false) as ->; [|done].
    apply has_false. intros Hin. apply Hnot, nodes_kept, Hin. }
  assert (typeBlock json t path ipn
            (match invalidMarks validMarks (default [] (marks json)) with
             | [] => ipm | _ => true end)
          ∈ check json path ipn ipm) as Hin.
  { apply elem_of_report. right; right. by exists t. }
  exact (Hnot (Hrep _ Hin)).
Qed.

Lemma marks_known_after json path ipn ipm :
  (∀ b, b ∈ check json path ipn ipm → knownAs validMarks' validNodes' b) →
  invalidMarks validMarks' (default [] (marks json)) = [].
Proof.
  intros Hrep. apply elem_of_nil_inv. intros e He.
  unfold invalidMarks in He. apply list_elem_of_filter in He as [Hbad He].
  assert (e ∈ invalidMarks validMarks (default [] (marks json))) as Hin.
  { unfold invalidMarks. apply list_elem_of_filter. split; [|done].
    intros Hk. apply Hbad, marks_kept, Hk. }
  apply list_elem_of_lookup_1 in Hin as [k Hk].
  assert (markBlock path ipn ipm k e ∈ check json path ipn ipm) as Hb.
  { apply elem_of_report. right; left. by exists k, e. }
  exact (Hbad (Hrep _ Hb)).
Qed.

Lemma report_empty_after json :
  ∀ path ipn ipm path' ipn' ipm',
    (∀ b, b ∈ check json path ipn ipm → knownAs validMarks' validNodes' b) →
    check' json path' ipn' ipm' = [].
Proof.
  induction json as [t a m x | t a m cs x IH] using JSONContent_children_ind;
    intros path ipn ipm path' ipn' ipm' Hrep;
    rewrite checkForUnknownContent_unfold,
      (type_known_after _ _ _ _ Hrep), (marks_known_after _ _ _ _ Hrep);
    cbn [content default imap reverse mjoin app]; [done|].
  rewrite app_nil_r. apply join_nil_2, Forall_forall. intros r Hr.
  rewrite elem_of_reverse in Hr.
  apply elem_of_lookup_imap in Hr as (k & c & -> & Hc).
  rewrite Forall_lookup in IH. eapply (IH _ _ Hc).
  intros b Hb. apply Hrep. apply elem_of_report. left.
  exists k, c. split; [exact Hc | exact Hb].
Qed.

End Schemas.

Lemma input_report_empty_after (input : JSONInput) (s0 s1 : Schema) :
  schema_nodes s0 ⊆ schema_nodes s1 →
  schema_marks s0 ⊆ schema_marks s1 →
  (∀ b, b ∈ getUnknownContent input s0 →
        knownAs (list_to_set (schema_marks s1)) (list_to_set (schema_nodes s1)) b) →
  getUnknownContent input s1 = [].
Proof.
  intros Hn Hm Hrep. unfold getUnknownContent in *.
  assert ((list_to_set (schema_nodes s0) : gset string)
          ⊆ list_to_set (schema_nodes s1)) as Hn'.
  { intros x. rewrite !elem_of_list_to_set. apply Hn. }
  assert ((list_to_set (schema_marks s0) : gset string)
          ⊆ list_to_set (schema_marks s1)) as Hm'.
  { intros x. rewrite !elem_of_list_to_set. apply Hm. }
  destruct input as [json | jsons]; cbn zeta in *.
  - eapply (report_empty_after _ _ _ _ Hn' Hm'). exact Hrep.
  - apply join_nil_2, Forall_forall. intros r Hr.
    apply elem_of_lookup_imap in Hr as (k & c & -> & Hc).
    eapply (report_empty_after _ _ _ _ Hn' Hm').
    intros b Hb. apply Hrep. apply list_elem_of_join. eexists. split; [exact Hb|].
    by apply (elem_of_lookup_imap_2
                (λ idx json, checkForUnknownContent _ _ json [pretty idx] false false)).
Qed.

(** A reported name that is reported as one kind only has a placeholder of
    that kind. *)
Lemma reported_name_generated (report : list unknownContentBlock)
    (options : PlaceholderExtensionOptions) (b : unknownContentBlock) :
  b ∈ report →
  name b ≠ "__proto__" →
  (∀ b', b' ∈ report → name b' = name b → blockType b' = blockType b) →
  ∃ d, d ∈ generatePlaceholderNodeExtensions (elementOfBlock <$> report) options
       ∧ extName d = name b ∧ extClass d = classOf (blockType b).
Proof.
  intros Hb Hp Hkind.
  assert (name b ∈ extName <$> generatePlaceholderNodeExtensions
                                 (elementOfBlock <$> report) options) as Hin.
  { apply generated_names. split; [|done].
    apply list_elem_of_fmap. exists (elementOfBlock b). split; [done|].
    by apply list_elem_of_fmap_2. }
  apply list_elem_of_fmap in Hin as (d & Hname & Hd).
  exists d. split; [done|]. split; [done|].
  destruct (generated_made _ _ _ Hd) as (el & attributes & Hlast & Hmade & _).
  apply lastWithTag_Some in Hlast as [Hel Htag].
  apply list_elem_of_fmap in Hel as (b' & -> & Hb').
  rewrite Hmade. simpl in *.
  rewrite (Hkind b' Hb') by congruence. done.
Qed.

Section EntryPoints.
Variable deriveSchema : Extensions → Outcome Schema.
Variable catchAllCalls : Extensions → string → Outcome (list (string + HTMLElement)).
Variable toLowerCase : string → string.

Local Abbreviation probe := (getUnknownHTMLElements catchAllCalls).
Local Abbreviation verdict := (isContentInvalid deriveSchema catchAllCalls).
Local Abbreviation placeholders :=
  (createPlaceholderExtensions deriveSchema catchAllCalls toLowerCase).

(** The two entry points agree: content that is not invalid gets the
    caller's list back unchanged, and one throws exactly when the other
    does, with the same error. *)
Theorem verdict_agrees_with_placeholders (content : Content)
    (extensions : Extensions) (options : PlaceholderExtensionOptions) :
  (verdict content extensions = Returned false →
   placeholders content extensions options = Returned extensions)
  ∧ ∀ e, verdict content extensions = Thrown e
         ↔ placeholders content extensions options = Thrown e.
Proof.
  unfold isContentInvalid, createPlaceholderExtensions.
  destruct content as [| |html|json]; cbn [truthy_content negb].
  1,2: split; [done | intros e; split; intros [= ->]; reflexivity].
  - destruct (truthy_string html); cbn [negb];
      [|split; [done | intros e; split; intros [= ->]; reflexivity]].
    destruct (probe html extensions) as [unknown|e']; cbn [mbind Outcome_bind];
      [|split; [done | intros e; split; intros [= ->]; reflexivity]].
    destruct (Nat.eqb (length unknown) 0); cbn [negb];
      (split; [done | intros e; split; intros [= ->]; reflexivity]).
  - destruct (deriveSchema extensions) as [schema|e']; cbn [mbind Outcome_bind];
      [|split; [done | intros e; split; intros [= ->]; reflexivity]].
    destruct (Nat.eqb (length (getUnknownContent json schema)) 0); cbn [negb];
      (split; [done | intros e; split; intros [= ->]; reflexivity]).
Qed.

(** For JSON content the returned list makes the content valid: when the
    schema derived from the returned list keeps the names of the first
    schema and has a node type for each node extension and a mark type for
    each mark extension, no name is reported both as a node and as a mark,
    and none is ["__proto__"], the content is not invalid for the returned
    list. *)
Theorem placeholders_make_json_valid (extensions result : Extensions)
    (options : PlaceholderExtensionOptions) (json : JSONInput) (s0 s1 : Schema) :
  deriveSchema extensions = Returned s0 →
  placeholders (CJSON json) extensions options = Returned result →
  deriveSchema result = Returned s1 →
  schema_nodes s0 ⊆ schema_nodes s1 →
  schema_marks s0 ⊆ schema_marks s1 →
  namesOfClass NodeClass result ⊆ schema_nodes s1 →
  namesOfClass MarkClass result ⊆ schema_marks s1 →
  (∀ b, b ∈ getUnknownContent json s0 → name b ≠ "__proto__") →
  (∀ b b', b ∈ getUnknownContent json s0 → b' ∈ getUnknownContent json s0 →
           name b' = name b → blockType b' = blockType b) →
  verdict (CJSON json) result = Returned false.
Proof.
  intros Hs0 Hres Hs1 Hn Hm Hnodes Hmarks Hproto Hkind.
  unfold createPlaceholderExtensions in Hres. cbn [truthy_content negb] in Hres.
  rewrite Hs0 in Hres. cbn [mbind Outcome_bind] in Hres.
  unfold isContentInvalid. cbn [truthy_content negb].
  rewrite Hs1. cbn [mbind Outcome_bind].
  rewrite (input_report_empty_after json s0 s1 Hn Hm); [done|].
  intros b Hb.
  destruct (Nat.eqb (length (getUnknownContent json s0)) 0) eqn:Hlen.
  { apply length_eqb_nil in Hlen. rewrite Hlen in Hb. by apply elem_of_nil in Hb. }
  injection Hres as <-.
  destruct (reported_name_generated _ options b Hb (Hproto b Hb)
              (λ b' Hb', Hkind b b' Hb Hb'))
    as (d & Hd & Hname & Hclass).
  unfold knownAs. rewrite <- Hname.
  assert (d ∈ extensions ++ generatePlaceholderNodeExtensions
                  (elementOfBlock <$> getUnknownContent json s0) options) as Hin.
  { apply elem_of_app. by right. }
  destruct (blockType b); simpl in Hclass; rewrite elem_of_list_to_set.
  - apply Hmarks. unfold namesOfClass. apply list_elem_of_fmap.
    exists d. split; [done|]. by apply list_elem_of_filter.
  - apply Hnodes. unfold namesOfClass. apply list_elem_of_fmap.
    exists d. split; [done|]. by apply list_elem_of_filter.
Qed.

(** For HTML content every extension of the result is one of the caller's,
    or a node extension named after the lower-cased tag of an element the
    probe saw: of group ["block"], with content ["inline*"], the lowest
    priority and one parse rule for its own name.  No mark extension is
    made for HTML. *)
Theorem html_placeholders_are_block_nodes (html : string)
    (extensions result : Extensions) (options : PlaceholderExtensionOptions) :
  placeholders (CString html) extensions options = Returned result →
  ∀ d, d ∈ result →
    d ∈ extensions
    ∨ ∃ unknown element,
        probe html extensions = Returned unknown
        ∧ element ∈ unknown
        ∧ extName d = toLowerCase (tagName element)
        ∧ extClass d = NodeClass
        ∧ group d = Some "block"
        ∧ contentExpression d = Some "inline*"
        ∧ priority d = Some MIN_SAFE_INTEGER
        ∧ parseHTML d = [ {| tag := extName d; getAttrs := NoGetAttrs |} ].
Proof.
  unfold createPlaceholderExtensions. cbn [truthy_content].
  destruct (truthy_string html); cbn [negb]; [|intros [= <-] d Hd; by left].
  destruct (probe html extensions) as [unknown|e]; cbn [mbind Outcome_bind]; [|done].
  destruct (Nat.eqb (length unknown) 0); [intros [= <-] d Hd; by left|].
  intros [= <-] d [Hd|Hd]%elem_of_app.
  - left. apply list_elem_of_filter in Hd. tauto.
  - right. destruct (generated_made _ _ _ Hd) as (el & attributes & Hlast & Hmade & _).
    apply lastWithTag_Some in Hlast as [Hel Htag].
    apply list_elem_of_fmap in Hel as (element & -> & Helement).
    exists unknown, element. split; [done|]. split; [done|].
    split; [done|]. rewrite Hmade. simpl. done.
Qed.

End EntryPoints.

(** Known content, and both entry points on it. *)
Lemma verdict_agrees_with_placeholders_witness :
  let content :=
    CJSON (One (mkJSON (Some "paragraph") None (Some [MarkName "bold"]) None None)) in
  let extensions :=
    [ createPlaceholder {| fallback := None |} node "paragraph" [];
      createPlaceholder {| fallback := None |} mark "bold" [] ] in
  isContentInvalid schemaOfNames oneUnknownElement content extensions
  = Returned false
  ∧ createPlaceholderExtensions schemaOfNames oneUnknownElement asciiLowerCase content extensions
      {| fallback := None |}
    = Returned extensions.
Proof.
  cbn zeta.
  assert (isContentInvalid schemaOfNames oneUnknownElement
            (CJSON (One (mkJSON (Some "paragraph") None (Some [MarkName "bold"])
                           None None)))
            [ createPlaceholder {| fallback := None |} node "paragraph" [];
              createPlaceholder {| fallback := None |} mark "bold" [] ]
          = Returned false) as H by reflexivity.
  split; [exact H|].
  exact (proj1 (verdict_agrees_with_placeholders schemaOfNames oneUnknownElement asciiLowerCase
                  _ _ {| fallback := None |}) H).
Defined.

(** A paragraph with an unknown mark and an unknown child: with the two
    placeholders the content is valid. *)
Lemma placeholders_make_json_valid_witness :
  let extensions := [ createPlaceholder {| fallback := None |} node "paragraph" [] ] in
  ∃ result,
    createPlaceholderExtensions schemaOfNames oneUnknownElement asciiLowerCase
      (CJSON (One unknownInParagraph)) extensions {| fallback := None |}
    = Returned result
    ∧ extName <$> result = ["paragraph"; "widget"; "glow"]
    ∧ isContentInvalid schemaOfNames oneUnknownElement
        (CJSON (One unknownInParagraph)) result = Returned false.
Proof.
  cbn zeta. eexists. split; [reflexivity|]. split; [reflexivity|].
  assert (getUnknownContent (One unknownInParagraph)
            {| schema_nodes := ["paragraph"]; schema_marks := [] |}
          = [ {| blockType := node; name := "widget"; attributes := ["id"];
                 path := ["content"; "0"];
                 invalidParentNode := false; invalidParentMark := true |};
              {| blockType := mark; name := "glow"; attributes := ["hue"];
                 path := ["marks"; "0"];
                 invalidParentNode := false; invalidParentMark := false |} ])
    as Hreport by reflexivity.
  apply (placeholders_make_json_valid schemaOfNames oneUnknownElement asciiLowerCase
           [ createPlaceholder {| fallback := None |} node "paragraph" [] ] _
           {| fallback := None |} (One unknownInParagraph)
           {| schema_nodes := ["paragraph"]; schema_marks := [] |}
           {| schema_nodes := ["paragraph"; "widget"]; schema_marks := ["glow"] |}).
  - reflexivity.
  - reflexivity.
  - reflexivity.
  - simpl. intros x Hx. apply list_elem_of_singleton in Hx as ->.
    apply list_elem_of_here.
  - simpl. intros x Hx. by apply elem_of_nil in Hx.
  - intros x Hx. exact Hx.
  - intros x Hx. exact Hx.
  - rewrite Hreport. apply Forall_forall.
    repeat first [apply List.Forall_cons | apply List.Forall_nil]; by simpl.
  - rewrite Hreport. intros b b' Hb Hb'.
    rewrite !elem_of_cons, elem_of_nil in Hb, Hb'.
    destruct Hb as [->|[->|[]]]; destruct Hb' as [->|[->|[]]]; by simpl.
Defined.

(** An element the probe saw, and the node extension made for it. *)
Lemma html_placeholders_are_block_nodes_witness :
  let d := createPlaceholder {| fallback := None |} node "my-widget" ["id"] in
  createPlaceholderExtensions schemaOfNames oneUnknownElement asciiLowerCase
    (CString "<my-widget id=1></my-widget>") [] {| fallback := None |}
  = Returned [d]
  ∧ (d ∈ []
     ∨ ∃ unknown element,
         getUnknownHTMLElements oneUnknownElement "<my-widget id=1></my-widget>" []
         = Returned unknown
         ∧ element ∈ unknown
         ∧ extName d = asciiLowerCase (tagName element)
         ∧ extClass d = NodeClass
         ∧ group d = Some "block"
         ∧ contentExpression d = Some "inline*"
         ∧ priority d = Some MIN_SAFE_INTEGER
         ∧ parseHTML d = [ {| tag := extName d; getAttrs := NoGetAttrs |} ]).
Proof.
  cbn zeta.
  assert (createPlaceholderExtensions schemaOfNames oneUnknownElement asciiLowerCase
            (CString "<my-widget id=1></my-widget>") [] {| fallback := None |}
          = Returned [createPlaceholder {| fallback := None |} node "my-widget" ["id"]])
    as H by reflexivity.
  split; [exact H|].
  exact (html_placeholders_are_block_nodes schemaOfNames oneUnknownElement asciiLowerCase
           _ _ _ _ H _ (list_elem_of_here _ _)).
Defined.

(** A name that is unknown both as a node type and as a mark gets one
    placeholder, a node: the content stays invalid for the returned list. *)
Example same_name_of_both_kinds_stays_invalid :
  ∃ result,
    createPlaceholderExtensions schemaOfNames oneUnknownElement asciiLowerCase
      (CJSON (One sameNameTwice)) [] {| fallback := None |} = Returned result
    ∧ extClass <$> result = [NodeClass]
    ∧ isContentInvalid schemaOfNames oneUnknownElement
        (CJSON (One sameNameTwice)) result = Returned true.
Proof. eexists. split; [reflexivity|]. split; reflexivity. Qed.

End EntryFacts.
